(** * CalShift: the calibrated contrastive objective of [CalShift.ipynb]

    A shallow embedding of the class [CalShift] (constructor,
    [compute_fisher_penalty], [compute_cmp], [forward]) together with the
    part of the tensor library the class calls.

    Numbers.  Tensor entries are real numbers: the development reasons in
    exact arithmetic, so rounding, overflow and NaN are outside of it.
    Tensor division never raises in the library; accordingly [/] below is
    the total division of [R], and nothing is claimed about its value at a
    zero divisor.

    Failure.  Every operation that can raise in Python returns a [result];
    the exception classes are the ones the interpreter and the tensor
    library raise at the modelled places. *)

From Stdlib Require Import Reals Lra Lia List ZArith Bool Permutation.
Import ListNotations.

Open Scope R_scope.

(** ** Exceptions and the error monad *)

Module Py.

(** The exception classes that the modelled code paths can raise. *)
Inductive exn : Type :=
| AttributeError      (* 'NoneType' object has no attribute 'parameters' *)
| IndexError          (* index or cross-entropy target out of bounds *)
| ValueError          (* cross-entropy batch sizes differ; cat of nothing *)
| RuntimeError        (* matmul shapes, autograd, stack of nothing *)
| ZeroDivisionError.  (* Python float divided by the int 0 *)

Inductive result (A : Type) : Type :=
| Ok (a : A)
| Raise (e : exn).

Arguments Ok {A} a.
Arguments Raise {A} e.

Definition bind {A B : Type} (m : result A) (k : A -> result B) : result B :=
  match m with
  | Ok a => k a
  | Raise e => Raise e
  end.

Definition is_ok {A : Type} (m : result A) : Prop := exists a, m = Ok a.
Definition raises {A : Type} (m : result A) : Prop := exists e, m = Raise e.

End Py.
Export Py.

Notation "x <- m ;; k" := (bind m (fun x => k))
  (at level 61, m at next level, right associativity).

(** ** The tensor operations used by the class *)

Module Torch.

(** A 2-D tensor: its rows and the size of dimension 1.  Dimension 0 is the
    number of rows, so that a tensor of shape (0, M) keeps its M. *)
Record Tensor2 : Type := mkTensor2 { rows : list (list R); size1 : nat }.

Definition size0 (t : Tensor2) : nat := length (rows t).

(** The shape invariant of a tensor: every row has [size1] entries. *)
Definition rectangular (t : Tensor2) : Prop :=
  Forall (fun r => length r = size1 t) (rows t).

Definition sum (v : list R) : R := fold_right Rplus 0 v.

Definition dot (u v : list R) : R :=
  sum (map (fun p => fst p * snd p) (combine u v)).

(** [v.norm()]: the Euclidean norm. *)
Definition norm (v : list R) : R := sqrt (sum (map (fun x => x * x) v)).

(** [t / t.norm(dim=-1, keepdim=True)]: an unguarded division, row by row. *)
Definition normalize (t : Tensor2) : Tensor2 :=
  mkTensor2 (map (fun v => map (fun x => x / norm v) v) (rows t)) (size1 t).

(** [t.T] *)
Definition transpose (t : Tensor2) : Tensor2 :=
  mkTensor2 (map (fun j => map (fun r => nth j r 0) (rows t)) (seq 0 (size1 t)))
            (size0 t).

(** [a @ b.T]: raises when the inner dimensions differ. *)
Definition matmul_T (a b : Tensor2) : result Tensor2 :=
  if Nat.eqb (size1 a) (size1 b)
  then Ok (mkTensor2 (map (fun u => map (fun v => dot u v) (rows b)) (rows a))
                     (size0 b))
  else Raise RuntimeError.

(** [t * c] for a scalar [c]. *)
Definition scale (t : Tensor2) (c : R) : Tensor2 :=
  mkTensor2 (map (map (fun x => x * c)) (rows t)) (size1 t).

Definition softmax_row (r : list R) : list R :=
  map (fun x => exp x / sum (map exp r)) r.

(** [F.softmax(t, dim=-1)] *)
Definition softmax (t : Tensor2) : Tensor2 :=
  mkTensor2 (map softmax_row (rows t)) (size1 t).

(** Indexing one dimension of size [n] with an integer: a negative index
    counts from the end, anything outside [-n, n) raises. *)
Definition wrap_index (n : nat) (k : Z) : result nat :=
  if (0 <=? k)%Z && (k <? Z.of_nat n)%Z then Ok (Z.to_nat k)
  else if (- Z.of_nat n <=? k)%Z && (k <? 0)%Z then Ok (Z.to_nat (k + Z.of_nat n))
  else Raise IndexError.

(** [labels[i]] for [i] a non-negative Python int. *)
Definition getitem (labels : list Z) (i : nat) : result Z :=
  match nth_error labels i with
  | Some l => Ok l
  | None => Raise IndexError
  end.

(** [t[i, k]] for a row number [i] and an integer (0-dim tensor) [k]. *)
Definition index2 (t : Tensor2) (i : nat) (k : Z) : result R :=
  match nth_error (rows t) i with
  | Some r => j <- wrap_index (size1 t) k ;; Ok (nth j r 0)
  | None => Raise IndexError
  end.

(** [F.cross_entropy]'s default [ignore_index]. *)
Definition ignore_index : Z := (-100)%Z.

(** The per-sample part of [F.cross_entropy(input, target)] with class-index
    targets: the summed negative log-likelihood and the number of targets
    that were not ignored.  A target outside [0, C) that is not
    [ignore_index] raises. *)
Fixpoint nll_sum (C : nat) (input : list (list R)) (target : list Z)
  : result (R * nat) :=
  match input, target with
  | r :: input', t :: target' =>
      if (t =? ignore_index)%Z then nll_sum C input' target'
      else if (0 <=? t)%Z && (t <? Z.of_nat C)%Z then
        acc <- nll_sum C input' target' ;;
        Ok (- ln (nth (Z.to_nat t) (softmax_row r) 0) + fst acc, S (snd acc))
      else Raise IndexError
  | _, _ => Ok (0, O)
  end.

(** [F.cross_entropy(input, target)] with the default arguments
    (mean reduction, [ignore_index = -100], no weights): the batch sizes
    are compared first, then the targets are checked. *)
Definition cross_entropy (input : Tensor2) (target : list Z) : result R :=
  if Nat.eqb (size0 input) (length target) then
    acc <- nll_sum (size1 input) (rows input) target ;;
    Ok (fst acc / INR (snd acc))
  else Raise ValueError.

(** [torch.cat] of a sequence of flattened tensors: an empty sequence is
    refused. *)
Definition cat (gs : list (list R)) : result (list R) :=
  match gs with
  | [] => Raise ValueError
  | _ => Ok (concat gs)
  end.

(** [torch.stack] of 1-D tensors: needs at least one tensor, all of one
    size. *)
Definition stack (vs : list (list R)) : result Tensor2 :=
  match vs with
  | [] => Raise RuntimeError
  | v :: vs' =>
      if forallb (fun w => Nat.eqb (length w) (length v)) vs'
      then Ok (mkTensor2 vs (length v))
      else Raise RuntimeError
  end.

(** [torch.mean] of a 1-D tensor. *)
Definition mean (v : list R) : R := sum v / INR (length v).

End Torch.
Export Torch.

(** ** The class [CalShift] *)

Section CalShift.

(** The batch tensors handed to the encoders are opaque to the class. *)
Variables Images TextTokens : Type.

(** A parameter tensor, flattened, with its gradient-tracking flag. *)
Record Param : Type :=
  mkParam { data : list R; requires_grad : bool }.

(** What the class uses of the CLIP model: the two encoders, the value of
    the [logit_scale] parameter and the parameter collection. *)
Record ClipModel : Type := mkClipModel {
  encode_image : Images -> Tensor2;
  encode_text : TextTokens -> Tensor2;
  logit_scale : R;
  parameters : list Param
}.

(** A prompt learner, as far as the class touches one: [.parameters()]. *)
Record PromptLearner : Type :=
  mkPromptLearner { learner_parameters : list Param }.

(** [torch.autograd.grad(log_prob, inputs, retain_graph=True,
    create_graph=True)] for the log-probability of sample [i].  The
    computation graph is not part of this embedding, so the engine's answer
    (one flattened gradient per input, or [None] when it raises) is a
    parameter of the development. *)
Variable autograd_grad : nat -> R -> list Param -> option (list (list R)).

Record CalShift : Type := mkCalShift {
  clip_model : ClipModel;
  lambda_fim : R;
  lambda_cmp : R;
  prompt_learner : option PromptLearner
}.

Definition default_lambda_fim : R := 4 / 10.
Definition default_lambda_cmp : R := 4 / 10.

(** [param.requires_grad = False] *)
Definition freeze (param : Param) : Param :=
  mkParam (data param) false.

(** The constructor.  The CLIP model is a shared object that the loop
    mutates in place: the first component is that object after the call,
    and the new instance refers to it. *)
Definition __init__ (clip_model0 : ClipModel) (lambda_fim0 lambda_cmp0 : R)
  : ClipModel * CalShift :=
  let frozen :=
    mkClipModel (encode_image clip_model0) (encode_text clip_model0)
                (logit_scale clip_model0)
                (map freeze (parameters clip_model0)) in
  (frozen, mkCalShift frozen lambda_fim0 lambda_cmp0 None).

(** [self.prompt_learner.parameters()] *)
Definition prompt_learner_parameters (self : CalShift) : result (list Param) :=
  match prompt_learner self with
  | Some pl => Ok (learner_parameters pl)
  | None => Raise AttributeError
  end.

Definition grad (i : nat) (log_prob : R) (inputs : list Param)
  : result (list (list R)) :=
  match autograd_grad i log_prob inputs with
  | Some g => Ok g
  | None => Raise RuntimeError
  end.

(** The loop of [compute_fisher_penalty] over [range(batch_size)]. *)
Fixpoint fisher_loop (self : CalShift) (probs : Tensor2) (labels : list Z)
    (range : list nat) (grad_log_probs : list (list R))
  : result (list (list R)) :=
  match range with
  | [] => Ok grad_log_probs
  | i :: range' =>
      l <- getitem labels i ;;
      p <- index2 probs i l ;;
      let log_prob := ln p in
      inputs <- prompt_learner_parameters self ;;
      g <- grad i log_prob inputs ;;
      flat <- cat g ;;
      fisher_loop self probs labels range' (grad_log_probs ++ [flat])
  end.

Definition compute_fisher_penalty (self : CalShift) (logits : Tensor2)
    (labels : list Z) : result R :=
  let probs := softmax logits in
  let batch_size := size0 logits in
  grad_log_probs <- fisher_loop self probs labels (seq 0 batch_size) [] ;;
  stacked <- stack grad_log_probs ;;
  Ok (mean (map (fun v => norm v ^ 2) (rows stacked))).

Definition Rgtb (x y : R) : bool := if Rlt_dec y x then true else false.

(** [probs[i][mask].sum()] for
    [mask = (probs[i] > true_prob) & (torch.arange(probs.size(1)) != labels[i])] *)
Definition excess (probs_i : list R) (num_classes : nat) (true_prob : R) (l : Z)
  : R :=
  let mask :=
    map (fun pj => Rgtb (fst pj) true_prob && negb (Z.of_nat (snd pj) =? l)%Z)
        (combine probs_i (seq 0 num_classes)) in
  sum (map fst (filter snd (combine probs_i mask))).

(** The loop of [compute_cmp] over [range(batch_size)]. *)
Fixpoint cmp_loop (probs : Tensor2) (labels : list Z) (range : list nat)
    (cmp_loss : R) : result R :=
  match range with
  | [] => Ok cmp_loss
  | i :: range' =>
      l <- getitem labels i ;;
      true_prob <- index2 probs i l ;;
      let excess_prob := excess (nth i (rows probs) []) (size1 probs) true_prob l in
      cmp_loop probs labels range'
        (if Rlt_dec 0 excess_prob then cmp_loss + true_prob / excess_prob
         else cmp_loss)
  end.

(** [cmp_loss / batch_size]: while no sample has added to it [cmp_loss] is
    the Python float 0.0, and [batch_size] is a Python int, so an empty
    batch divides by the int 0. *)
Definition compute_cmp (logits : Tensor2) (labels : list Z) : result R :=
  let probs := softmax logits in
  let batch_size := size0 logits in
  cmp_loss <- cmp_loop probs labels (seq 0 batch_size) 0 ;;
  if Nat.eqb batch_size 0 then Raise ZeroDivisionError
  else Ok (cmp_loss / INR batch_size).

(** The dictionary returned by [forward]. *)
Record Report : Type := mkReport {
  loss : R;
  clip_loss : R;
  fim_penalty : R;
  cmp_penalty : R;
  logits : Tensor2
}.

(** [(image_features @ text_features.T) * self.clip_model.logit_scale.exp()]
    on the normalized features. *)
Definition compute_logits (self : CalShift) (images : Images)
    (text_tokens : TextTokens) : result Tensor2 :=
  let image_features := encode_image (clip_model self) images in
  let text_features := encode_text (clip_model self) text_tokens in
  let image_features := normalize image_features in
  let text_features := normalize text_features in
  sims <- matmul_T image_features text_features ;;
  Ok (scale sims (exp (logit_scale (clip_model self)))).

(** [(F.cross_entropy(logits, labels) + F.cross_entropy(logits.T, labels)) / 2] *)
Definition contrastive_loss (logits0 : Tensor2) (labels : list Z) : result R :=
  by_row <- cross_entropy logits0 labels ;;
  by_column <- cross_entropy (transpose logits0) labels ;;
  Ok ((by_row + by_column) / 2).

Definition forward (self : CalShift) (images : Images)
    (text_tokens : TextTokens) (labels : list Z) : result Report :=
  logits0 <- compute_logits self images text_tokens ;;
  clip_loss0 <- contrastive_loss logits0 labels ;;
  fim_penalty0 <- compute_fisher_penalty self logits0 labels ;;
  cmp_penalty0 <- compute_cmp logits0 labels ;;
  let total_loss :=
    clip_loss0 + lambda_fim self * fim_penalty0 + lambda_cmp self * cmp_penalty0 in
  Ok (mkReport total_loss clip_loss0 fim_penalty0 cmp_penalty0 logits0).

End CalShift.

Arguments encode_image {Images TextTokens} c _.
Arguments encode_text {Images TextTokens} c _.
Arguments logit_scale {Images TextTokens} c.
Arguments parameters {Images TextTokens} c.
Arguments mkClipModel {Images TextTokens} _ _ _ _.
Arguments clip_model {Images TextTokens} c.
Arguments lambda_fim {Images TextTokens} c.
Arguments lambda_cmp {Images TextTokens} c.
Arguments prompt_learner {Images TextTokens} c.
Arguments mkCalShift {Images TextTokens} _ _ _ _.
Arguments __init__ {Images TextTokens} _ _ _.
Arguments prompt_learner_parameters {Images TextTokens} _.
Arguments fisher_loop {Images TextTokens} _ _ _ _ _ _.
Arguments compute_fisher_penalty {Images TextTokens} _ _ _ _.
Arguments compute_logits {Images TextTokens} _ _ _.
Arguments forward {Images TextTokens} _ _ _ _ _.

(** ** The shape of a batch *)

Section Batches.

Context {Images TextTokens : Type}.

(** N, the number of images, and M, the number of text prompts, as the
    encoders report them. *)
Definition num_images (c : ClipModel Images TextTokens) (images : Images) : nat :=
  size0 (encode_image c images).

Definition num_prompts (c : ClipModel Images TextTokens) (text_tokens : TextTokens)
  : nat :=
  size0 (encode_text c text_tokens).

(** Image and text embeddings have one dimensionality. *)
Definition same_embedding_dim (c : ClipModel Images TextTokens)
    (images : Images) (text_tokens : TextTokens) : Prop :=
  size1 (encode_image c images) = size1 (encode_text c text_tokens).

(** A label that indexes the text-prompt axis. *)
Definition label_in_range (M : nat) (l : Z) : Prop := (0 <= l < Z.of_nat M)%Z.

(** A batch as the data model has it: one label per image, each in [0, M). *)
Definition labels_valid (c : ClipModel Images TextTokens) (images : Images)
    (text_tokens : TextTokens) (labels : list Z) : Prop :=
  length labels = num_images c images /\
  Forall (label_in_range (num_prompts c text_tokens)) labels.

(** Some embedding row has Euclidean norm exactly zero. *)
Definition has_zero_norm (t : Tensor2) : Prop :=
  exists v, In v (rows t) /\ norm v = 0.

End Batches.


(** ** Conditions under which the loops of the class run through *)

(** A label that [t[i, l]] accepts on an axis of size M: negative values
    down to -M count from the end. *)
Definition label_indexable (M : nat) (l : Z) : Prop :=
  (- Z.of_nat M <= l < Z.of_nat M)%Z.

(** A target that [F.cross_entropy] accepts for C classes. *)
Definition target_accepted (C : nat) (t : Z) : Prop :=
  t = ignore_index \/ label_in_range C t.

(** A target on which [F.cross_entropy] raises for C classes. *)
Definition target_rejected (C : nat) (t : Z) : Prop :=
  t <> ignore_index /\ ~ label_in_range C t.

(** The autograd engine answers for each of the first N samples with a
    non-empty tuple of gradients of one total size. *)
Definition autograd_available
    (autograd_grad : nat -> R -> list Param -> option (list (list R)))
    (inputs : list Param) (N : nat) : Prop :=
  exists K, forall i x, (i < N)%nat ->
    exists g, autograd_grad i x inputs = Some g /\ g <> [] /\ length (concat g) = K.

(** [flat] is the concatenated gradient, with respect to the prompt learner's
    parameters, of the log-probability that [probs] gives the labeled class
    of sample [i]. *)
Definition sample_gradient {Images TextTokens : Type}
    (autograd_grad : nat -> R -> list Param -> option (list (list R)))
    (self : CalShift Images TextTokens) (probs : Tensor2) (labels : list Z)
    (i : nat) (flat : list R) : Prop :=
  exists l p pl g,
    nth_error labels i = Some l /\
    index2 probs i l = Ok p /\
    prompt_learner self = Some pl /\
    autograd_grad i (ln p) (learner_parameters pl) = Some g /\
    g <> [] /\ flat = concat g.

(** ** The confidence-misalignment penalty in the words of the specification *)

Module Spec.

(** The softmax probability of class [j] over the logits row [r]. *)
Definition softmax_prob (r : list R) (j : nat) : R :=
  exp (nth j r 0) / sum (map exp r).

(** The other classes whose probability strictly exceeds that of class [l]. *)
Definition exceeding (r : list R) (l : nat) : list nat :=
  filter (fun j => negb (Nat.eqb j l) && Rgtb (softmax_prob r j) (softmax_prob r l))
         (seq 0 (length r)).

(** [true_prob] of sample [i]: the probability of its labeled class. *)
Definition true_prob (L : Tensor2) (labels : list Z) (i : nat) : R :=
  softmax_prob (nth i (rows L) []) (Z.to_nat (nth i labels 0%Z)).

(** [excess_prob] of sample [i]: the summed probability of the exceeding
    classes. *)
Definition excess_prob (L : Tensor2) (labels : list Z) (i : nat) : R :=
  let r := nth i (rows L) [] in
  sum (map (softmax_prob r) (exceeding r (Z.to_nat (nth i labels 0%Z)))).

(** What a sample contributes: [true_prob / excess_prob] when
    [excess_prob > 0], and 0 when [excess_prob = 0]. *)
Definition contributes (true_prob0 excess_prob0 term : R) : Prop :=
  (0 < excess_prob0 -> term = true_prob0 / excess_prob0) /\
  (excess_prob0 = 0 -> term = 0).

(** [v] is the batch mean of the per-sample contributions. *)
Definition is_cmp_penalty (L : Tensor2) (labels : list Z) (v : R) : Prop :=
  exists terms,
    Forall2 (fun i term =>
               contributes (true_prob L labels i) (excess_prob L labels i) term)
            (seq 0 (size0 L)) terms /\
    v = sum terms / INR (size0 L).

(** The labeled class of sample [i] has the strictly highest probability of
    its row. *)
Definition label_dominates (L : Tensor2) (labels : list Z) (i : nat) : Prop :=
  forall j, (j < size1 L)%nat -> j <> Z.to_nat (nth i labels 0%Z) ->
    softmax_prob (nth i (rows L) []) j < true_prob L labels i.

End Spec.

(** ** Reordering a square batch

    An order [sigma] lists the old sample (and class) numbers in their new
    sequence: new sample [i'] is old sample [nth i' sigma], and new class
    [j'] is old class [nth j' sigma]. *)

(** The new number of the old class [k]. *)
Fixpoint position (sigma : list nat) (k : nat) : nat :=
  match sigma with
  | [] => O
  | j :: sigma' => if Nat.eqb j k then O else S (position sigma' k)
  end.

Definition permute_vector (sigma : list nat) (r : list R) : list R :=
  map (fun j => nth j r 0) sigma.

(** Rows and columns reordered alike. *)
Definition permute_logits (sigma : list nat) (L : Tensor2) : Tensor2 :=
  mkTensor2 (map (fun i => permute_vector sigma (nth i (rows L) [])) sigma)
            (size1 L).

(** The labels reordered with the samples and renumbered with the classes. *)
Definition permute_labels (sigma : list nat) (labels : list Z) : list Z :=
  map (fun i => Z.of_nat (position sigma (Z.to_nat (nth i labels 0%Z)))) sigma.

(** ** Concrete batches

    Small instances on which the statements below are exercised: a CLIP
    model whose encoders return fixed embeddings, and an autograd engine that
    returns a fixed gradient. *)

Module Demo.

(** N embeddings of dimension 1, all equal to [x]. *)
Definition constant_embeddings (N : nat) (x : R) : Tensor2 :=
  mkTensor2 (repeat [x] N) 1.

Definition fixed_clip (image_features text_features : Tensor2)
  : ClipModel unit unit :=
  mkClipModel (fun _ => image_features) (fun _ => text_features) 0
              [mkParam [1; 2] true; mkParam [3] false].

Definition fixed_autograd (i : nat) (log_prob : R) (inputs : list Param)
  : option (list (list R)) :=
  Some [[1; 2]; [2]].

Definition learner : PromptLearner :=
  mkPromptLearner [mkParam [0; 0] true; mkParam [0] true].

(** An instance whose [prompt_learner] attribute has been assigned after
    construction. *)
Definition with_learner (image_features text_features : Tensor2)
    (lambda_fim0 lambda_cmp0 : R) : CalShift unit unit :=
  mkCalShift (fixed_clip image_features text_features) lambda_fim0 lambda_cmp0
             (Some learner).

(** An instance exactly as the constructor leaves it. *)
Definition as_constructed (image_features text_features : Tensor2)
    (lambda_fim0 lambda_cmp0 : R) : CalShift unit unit :=
  snd (__init__ (fixed_clip image_features text_features) lambda_fim0 lambda_cmp0).

(** A 100 x 100 batch whose first label is [ignore_index]. *)
Definition ignored_labels : list Z := ignore_index :: repeat 0%Z 99.

End Demo.

(** ** The two error-handling policies the specification asks for *)

(** A zero-norm embedding makes [forward] fail. *)
Definition zero_norm_raises : Prop :=
  forall (Images TextTokens : Type)
         (autograd_grad : nat -> R -> list Param -> option (list (list R)))
         (self : CalShift Images TextTokens) (images : Images)
         (text_tokens : TextTokens) (labels : list Z),
    has_zero_norm (encode_image (clip_model self) images) \/
    has_zero_norm (encode_text (clip_model self) text_tokens) ->
    raises (forward autograd_grad self images text_tokens labels).

(** A label that is negative or at least the number of text prompts makes
    [forward] fail. *)
Definition invalid_label_raises : Prop :=
  forall (Images TextTokens : Type)
         (autograd_grad : nat -> R -> list Param -> option (list (list R)))
         (self : CalShift Images TextTokens) (images : Images)
         (text_tokens : TextTokens) (labels : list Z),
    length labels = num_images (clip_model self) images ->
    Exists (fun l => (l < 0)%Z \/
                     (Z.of_nat (num_prompts (clip_model self) text_tokens) <= l)%Z)
           labels ->
    raises (forward autograd_grad self images text_tokens labels).

(** ** Further vocabulary for the behaviour of the class *)

(** Sample [i] has a label, and [probs[i, labels[i]]] accepts it. *)
Definition sample_indexable (L : Tensor2) (labels : list Z) (i : nat) : Prop :=
  exists l, nth_error labels i = Some l /\ label_indexable (size1 L) l.

(** Sample [i] has no label, or one that [probs[i, labels[i]]] rejects. *)
Definition sample_unindexable (L : Tensor2) (labels : list Z) (i : nat) : Prop :=
  match nth_error labels i with
  | Some l => ~ label_indexable (size1 L) l
  | None => True
  end.

(** The class a label denotes under indexing: a negative label down to -M
    counts from the end. *)
Definition normalize_label (M : nat) (l : Z) : Z :=
  if (- Z.of_nat M <=? l)%Z && (l <? 0)%Z then (l + Z.of_nat M)%Z else l.

(** The label of sample [i] is an argmax of its logits row. *)
Definition label_is_argmax (L : Tensor2) (labels : list Z) (i : nat) : Prop :=
  forall j, (j < size1 L)%nat ->
    nth j (nth i (rows L) []) 0
    <= nth (Z.to_nat (nth i labels 0%Z)) (nth i (rows L) []) 0.

(** Two samples, two classes. *)
Definition diagonal_logits : Tensor2 := mkTensor2 [[1; 0]; [0; 1]] 2.

(** The samples of a batch in another order: new sample [i'] is old sample
    [nth i' sigma]; the classes keep their numbers. *)
Definition reorder_samples (sigma : list nat) (L : Tensor2) : Tensor2 :=
  mkTensor2 (map (fun i => nth i (rows L) []) sigma) (size1 L).

Definition reorder_labels (sigma : list nat) (labels : list Z) : list Z :=
  map (fun i => nth i labels 0%Z) sigma.

(** [t + c] for a scalar [c]. *)
Definition add_scalar (t : Tensor2) (c : R) : Tensor2 :=
  mkTensor2 (map (map (fun x => x + c)) (rows t)) (size1 t).

(** The labels of the example under [if __name__ == "__main__"]. *)
Definition example_labels : list Z := [0; 1; 0; 1]%Z.

(** The example: an instance built with the default weights, called once on
    the example batch.  The four prints that follow run only if the call
    returns. *)
Definition example_usage {Images TextTokens : Type}
    (autograd_grad : nat -> R -> list Param -> option (list (list R)))
    (clip_model0 : ClipModel Images TextTokens) (images : Images)
    (text_tokens : TextTokens) : result Report :=
  let cal_shift := snd (__init__ clip_model0 default_lambda_fim default_lambda_cmp) in
  forward autograd_grad cal_shift images text_tokens example_labels.

(** What sample [i] adds to the running sum of [compute_cmp]. *)
Definition cmp_term (L : Tensor2) (labels : list Z) (i : nat) : R :=
  if Rlt_dec 0 (Spec.excess_prob L labels i)
  then Spec.true_prob L labels i / Spec.excess_prob L labels i
  else 0.

(** The classes of a batch renumbered: new class [j'] is old class
    [nth j' sigma]; the samples keep their order. *)
Definition permute_classes (sigma : list nat) (L : Tensor2) : Tensor2 :=
  mkTensor2 (map (permute_vector sigma) (rows L)) (size1 L).

Definition relabel (sigma : list nat) (labels : list Z) : list Z :=
  map (fun l => Z.of_nat (position sigma (Z.to_nat l))) labels.
(** ** Reasoning about the error monad *)

Lemma bind_Ok_inv {A B : Type} (m : result A) (k : A -> result B) (b : B) :
  bind m k = Ok b -> exists a, m = Ok a /\ k a = Ok b.
Proof.
  destruct m as [a | e]; simpl; intros H.
  - exists a. split; [reflexivity | exact H].
  - discriminate H.
Qed.

Lemma raises_bind_l {A B : Type} (m : result A) (k : A -> result B) :
  raises m -> raises (bind m k).
Proof. intros [e ->]. exists e. reflexivity. Qed.

Lemma raises_bind_r {A B : Type} (m : result A) (k : A -> result B) :
  (forall a, raises (k a)) -> raises (bind m k).
Proof.
  intros H. destruct m as [a | e]; simpl.
  - apply H.
  - exists e. reflexivity.
Qed.

Lemma raises_not_ok {A : Type} (m : result A) : raises m -> ~ is_ok m.
Proof. intros [e ->] [a H]. discriminate H. Qed.

Ltac bind_inv H :=
  let a := fresh "a" in
  let Ha := fresh "E" in
  apply bind_Ok_inv in H; destruct H as [a [Ha H]].

(** ** Sums *)

Lemma sum_nonneg (v : list R) : Forall (fun x => 0 <= x) v -> 0 <= sum v.
Proof.
  unfold sum. induction 1 as [| x v Hx _ IH]; simpl.
  - lra.
  - lra.
Qed.

Lemma sum_Permutation (u v : list R) : Permutation u v -> sum u = sum v.
Proof.
  unfold sum. induction 1 as [| x u v _ IH | x y u | u v w _ IH1 _ IH2]; simpl.
  - reflexivity.
  - rewrite IH. reflexivity.
  - lra.
  - congruence.
Qed.

Lemma sum_map_ext_in {A : Type} (f g : A -> R) (l : list A) :
  (forall a, In a l -> f a = g a) -> sum (map f l) = sum (map g l).
Proof. intros H. rewrite (map_ext_in f g l H). reflexivity. Qed.

Lemma sum_exp_pos (r : list R) : r <> [] -> 0 < sum (map exp r).
Proof.
  destruct r as [| x r]; [congruence |]. intros _. simpl.
  assert (0 <= sum (map exp r)).
  { apply sum_nonneg. apply Forall_forall. intros y Hy.
    apply in_map_iff in Hy. destruct Hy as [z [<- _]].
    left. apply exp_pos. }
  pose proof (exp_pos x). unfold sum in *. lra.
Qed.

(** ** Shapes *)

Lemma size0_softmax (t : Tensor2) : size0 (softmax t) = size0 t.
Proof. unfold size0, softmax. simpl. apply length_map. Qed.

Lemma size0_transpose (t : Tensor2) : size0 (transpose t) = size1 t.
Proof. unfold size0, transpose. simpl. rewrite length_map. apply length_seq. Qed.

Lemma length_softmax_row (r : list R) : length (softmax_row r) = length r.
Proof. apply length_map. Qed.

Section Logits.

Context {Images TextTokens : Type}.
Implicit Types (self : CalShift Images TextTokens).

(** The logits are computed exactly when the embedding dimensions agree,
    and then have shape (N, M) whatever the embeddings contain. *)
Lemma compute_logits_Ok self images text_tokens :
  same_embedding_dim (clip_model self) images text_tokens ->
  exists L, compute_logits self images text_tokens = Ok L /\
            size0 L = num_images (clip_model self) images /\
            size1 L = num_prompts (clip_model self) text_tokens /\
            rectangular L.
Proof.
  unfold same_embedding_dim, compute_logits, matmul_T. intros Hd.
  simpl. rewrite Hd, Nat.eqb_refl. simpl.
  eexists. split; [reflexivity |]. repeat split.
  - unfold num_images, size0. simpl. rewrite !length_map. reflexivity.
  - unfold num_prompts, size0. simpl. rewrite !length_map. reflexivity.
  - unfold rectangular, scale. simpl. apply Forall_forall. intros r Hr.
    apply in_map_iff in Hr. destruct Hr as [r0 [<- Hr0]].
    apply in_map_iff in Hr0. destruct Hr0 as [u [<- _]].
    unfold size0. simpl. rewrite !length_map. reflexivity.
Qed.

Lemma compute_logits_mismatch self images text_tokens :
  ~ same_embedding_dim (clip_model self) images text_tokens ->
  compute_logits self images text_tokens = Raise RuntimeError.
Proof.
  unfold same_embedding_dim, compute_logits, matmul_T. intros Hd. simpl.
  apply Nat.eqb_neq in Hd. rewrite Hd. reflexivity.
Qed.

Lemma compute_logits_shape self images text_tokens L :
  compute_logits self images text_tokens = Ok L ->
  same_embedding_dim (clip_model self) images text_tokens /\
  size0 L = num_images (clip_model self) images /\
  size1 L = num_prompts (clip_model self) text_tokens /\
  rectangular L.
Proof.
  intros H.
  assert (Hd : same_embedding_dim (clip_model self) images text_tokens).
  { unfold same_embedding_dim.
    destruct (Nat.eq_dec (size1 (encode_image (clip_model self) images))
                         (size1 (encode_text (clip_model self) text_tokens)))
      as [Heq | Hne]; [exact Heq |].
    rewrite (compute_logits_mismatch self images text_tokens Hne) in H.
    discriminate H. }
  split; [exact Hd |].
  destruct (compute_logits_Ok self images text_tokens Hd) as [L' [HL' Hs]].
  rewrite HL' in H. injection H as <-. exact Hs.
Qed.

End Logits.

(** ** Cross-entropy: when it returns and what it raises *)

Lemma target_accepted_dec (C : nat) (t : Z) :
  {target_accepted C t} + {target_rejected C t}.
Proof.
  unfold target_accepted, target_rejected, label_in_range.
  destruct (Z.eq_dec t ignore_index) as [He | Hne]; [left; left; exact He |].
  destruct (Z_le_dec 0 t) as [H0 | H0];
    [destruct (Z_lt_dec t (Z.of_nat C)) as [H1 | H1] |].
  - left. right. lia.
  - right. split; [exact Hne | lia].
  - right. split; [exact Hne | lia].
Qed.

Lemma range_test_true (C : nat) (t : Z) :
  label_in_range C t -> ((0 <=? t)%Z && (t <? Z.of_nat C)%Z) = true.
Proof.
  unfold label_in_range. intros [H0 H1].
  apply andb_true_intro. split; [apply Z.leb_le | apply Z.ltb_lt]; assumption.
Qed.

Lemma range_test_false (C : nat) (t : Z) :
  ~ label_in_range C t -> ((0 <=? t)%Z && (t <? Z.of_nat C)%Z) = false.
Proof.
  unfold label_in_range. intros H.
  destruct ((0 <=? t)%Z && (t <? Z.of_nat C)%Z) eqn:E; [| reflexivity].
  apply andb_prop in E. destruct E as [E0 E1].
  apply Z.leb_le in E0. apply Z.ltb_lt in E1. lia.
Qed.

Lemma in_range_not_ignored (C : nat) (t : Z) :
  label_in_range C t -> (t =? ignore_index)%Z = false.
Proof.
  unfold label_in_range, ignore_index. intros H. apply Z.eqb_neq. lia.
Qed.

Lemma nll_sum_Ok (C : nat) (input : list (list R)) (target : list Z) :
  Forall (target_accepted C) target -> is_ok (nll_sum C input target).
Proof.
  revert target. induction input as [| r input IH]; intros [| t target] H;
    simpl; try (eexists; reflexivity).
  inversion H as [| t' target' Ht Htarget]; subst.
  destruct (t =? ignore_index)%Z eqn:Ei.
  - exact (IH target Htarget).
  - destruct Ht as [Ht | Ht].
    + apply Z.eqb_neq in Ei. contradiction.
    + rewrite (range_test_true C t Ht).
      destruct (IH target Htarget) as [acc ->]. simpl. eexists. reflexivity.
Qed.

Lemma nll_sum_rejected (C : nat) (input : list (list R)) (target : list Z) :
  length input = length target ->
  Exists (target_rejected C) target ->
  nll_sum C input target = Raise IndexError.
Proof.
  revert target. induction input as [| r input IH]; intros [| t target] Hlen Hex;
    simpl in Hlen; try discriminate Hlen.
  - inversion Hex.
  - simpl. injection Hlen as Hlen.
    destruct (target_accepted_dec C t) as [[Hi | Hr] | [Hni Hnr]].
    + rewrite Hi, Z.eqb_refl.
      inversion Hex as [t' target' Hbad | t' target' Hbad]; subst.
      * destruct Hbad as [Hbad _]. contradiction.
      * exact (IH target Hlen Hbad).
    + rewrite (in_range_not_ignored C t Hr), (range_test_true C t Hr).
      inversion Hex as [t' target' Hbad | t' target' Hbad]; subst.
      * destruct Hbad as [_ Hbad]. contradiction.
      * rewrite (IH target Hlen Hbad). reflexivity.
    + apply Z.eqb_neq in Hni. rewrite Hni, (range_test_false C t Hnr).
      reflexivity.
Qed.

Lemma cross_entropy_Ok (input : Tensor2) (target : list Z) :
  size0 input = length target ->
  Forall (target_accepted (size1 input)) target ->
  is_ok (cross_entropy input target).
Proof.
  intros Hlen Hacc. unfold cross_entropy.
  apply Nat.eqb_eq in Hlen. rewrite Hlen.
  destruct (nll_sum_Ok (size1 input) (rows input) target Hacc) as [acc ->].
  simpl. eexists. reflexivity.
Qed.

Lemma cross_entropy_batch_mismatch (input : Tensor2) (target : list Z) :
  size0 input <> length target -> cross_entropy input target = Raise ValueError.
Proof.
  intros Hlen. unfold cross_entropy. apply Nat.eqb_neq in Hlen.
  rewrite Hlen. reflexivity.
Qed.

Lemma cross_entropy_rejected (input : Tensor2) (target : list Z) :
  size0 input = length target ->
  Exists (target_rejected (size1 input)) target ->
  cross_entropy input target = Raise IndexError.
Proof.
  intros Hlen Hex. unfold cross_entropy.
  pose proof Hlen as Hlen'. apply Nat.eqb_eq in Hlen'. rewrite Hlen'.
  rewrite (nll_sum_rejected _ _ _ Hlen Hex). reflexivity.
Qed.

Lemma cross_entropy_Ok_size (input : Tensor2) (target : list Z) (v : R) :
  cross_entropy input target = Ok v -> size0 input = length target.
Proof.
  intros H. destruct (Nat.eq_dec (size0 input) (length target)) as [E | E].
  - exact E.
  - rewrite (cross_entropy_batch_mismatch input target E) in H. discriminate H.
Qed.

(** The symmetric loss returns only for a square logits matrix. *)
Lemma contrastive_loss_Ok_square (L : Tensor2) (labels : list Z) (v : R) :
  contrastive_loss L labels = Ok v ->
  size0 L = length labels /\ size1 L = length labels.
Proof.
  unfold contrastive_loss. intros H.
  bind_inv H. bind_inv H.
  apply cross_entropy_Ok_size in E. apply cross_entropy_Ok_size in E0.
  rewrite size0_transpose in E0. split; assumption.
Qed.

Lemma contrastive_loss_Ok (L : Tensor2) (labels : list Z) :
  size0 L = length labels -> size1 L = length labels ->
  Forall (target_accepted (size1 L)) labels ->
  is_ok (contrastive_loss L labels).
Proof.
  intros H0 H1 Hacc. unfold contrastive_loss.
  destruct (cross_entropy_Ok L labels H0 Hacc) as [a ->]. simpl.
  assert (Hacc' : Forall (target_accepted (size1 (transpose L))) labels).
  { simpl. rewrite H0, <- H1. exact Hacc. }
  destruct (cross_entropy_Ok (transpose L) labels) as [b ->].
  - rewrite size0_transpose. exact H1.
  - exact Hacc'.
  - simpl. eexists. reflexivity.
Qed.

(** ** Indexing *)

Lemma wrap_index_in_range (n : nat) (k : Z) :
  label_in_range n k -> wrap_index n k = Ok (Z.to_nat k).
Proof.
  intros H. unfold wrap_index. rewrite (range_test_true n k H). reflexivity.
Qed.

Lemma wrap_index_Ok (n : nat) (k : Z) :
  label_indexable n k -> exists j, wrap_index n k = Ok j /\ (j < n)%nat.
Proof.
  unfold label_indexable, wrap_index. intros [Hlo Hhi].
  destruct (Z_le_dec 0 k) as [H0 | H0].
  - assert (E : ((0 <=? k)%Z && (k <? Z.of_nat n)%Z) = true).
    { apply range_test_true. split; assumption. }
    rewrite E. exists (Z.to_nat k). split; [reflexivity | lia].
  - assert (E : ((0 <=? k)%Z && (k <? Z.of_nat n)%Z) = false).
    { apply range_test_false. unfold label_in_range. lia. }
    rewrite E.
    assert (E' : ((- Z.of_nat n <=? k)%Z && (k <? 0)%Z) = true).
    { apply andb_true_intro. split; [apply Z.leb_le | apply Z.ltb_lt]; lia. }
    rewrite E'. exists (Z.to_nat (k + Z.of_nat n)). split; [reflexivity | lia].
Qed.

Lemma in_range_indexable (n : nat) (k : Z) :
  label_in_range n k -> label_indexable n k.
Proof. unfold label_in_range, label_indexable. lia. Qed.

Lemma getitem_Ok (labels : list Z) (i : nat) (l : Z) :
  getitem labels i = Ok l <-> nth_error labels i = Some l.
Proof.
  unfold getitem. destruct (nth_error labels i) as [l' |]; split; intros H;
    try discriminate H; injection H as ->; reflexivity.
Qed.

Lemma index2_Ok (t : Tensor2) (i : nat) (k : Z) :
  (i < size0 t)%nat -> label_indexable (size1 t) k -> is_ok (index2 t i k).
Proof.
  unfold size0, index2. intros Hi Hk.
  destruct (nth_error (rows t) i) as [r |] eqn:E.
  - destruct (wrap_index_Ok _ _ Hk) as [j [-> _]]. simpl. eexists. reflexivity.
  - apply nth_error_None in E. lia.
Qed.

Lemma index2_in_range (t : Tensor2) (i : nat) (k : Z) :
  (i < size0 t)%nat -> label_in_range (size1 t) k ->
  index2 t i k = Ok (nth (Z.to_nat k) (nth i (rows t) []) 0).
Proof.
  unfold size0, index2. intros Hi Hk.
  destruct (nth_error (rows t) i) as [r |] eqn:E.
  - rewrite (wrap_index_in_range _ _ Hk). simpl.
    rewrite (nth_error_nth _ _ _ E). reflexivity.
  - apply nth_error_None in E. lia.
Qed.

(** ** The Fisher penalty *)

Section Fisher.

Context {Images TextTokens : Type}.
Variable autograd_grad : nat -> R -> list Param -> option (list (list R)).
Implicit Types (self : CalShift Images TextTokens).

Lemma cat_Ok (g : list (list R)) (flat : list R) :
  cat g = Ok flat <-> g <> [] /\ flat = concat g.
Proof.
  destruct g as [| x g]; simpl; split.
  - discriminate.
  - intros [H _]. congruence.
  - intros H. injection H as <-. split; [discriminate | reflexivity].
  - intros [_ ->]. reflexivity.
Qed.

Lemma fisher_step self probs labels i range acc res :
  fisher_loop autograd_grad self probs labels (i :: range) acc = Ok res <->
  exists flat,
    sample_gradient autograd_grad self probs labels i flat /\
    fisher_loop autograd_grad self probs labels range (acc ++ [flat]) = Ok res.
Proof.
  simpl. split.
  - intros H. bind_inv H. bind_inv H. bind_inv H. bind_inv H. bind_inv H.
    rename a into l, a0 into p, a1 into inputs, a2 into g, a3 into flat.
    apply getitem_Ok in E.
    unfold prompt_learner_parameters in E1.
    destruct (prompt_learner self) as [pl |] eqn:Epl; [| discriminate E1].
    injection E1 as <-.
    unfold grad in E2.
    destruct (autograd_grad i (ln p) (learner_parameters pl)) as [g' |] eqn:Eg;
      [| discriminate E2].
    injection E2 as ->.
    apply cat_Ok in E3. destruct E3 as [Hne ->].
    exists (concat g). split; [| exact H].
    exists l, p, pl, g. repeat split; assumption.
  - intros [flat [[l [p [pl [g [Hl [Hp [Hpl [Hg [Hne ->]]]]]]]]] H]].
    apply getitem_Ok in Hl. rewrite Hl. simpl. rewrite Hp. simpl.
    unfold prompt_learner_parameters. rewrite Hpl. simpl.
    unfold grad. rewrite Hg. simpl.
    rewrite (proj2 (cat_Ok g (concat g)) (conj Hne eq_refl)). simpl.
    exact H.
Qed.

(** The loop returns exactly the per-sample gradients, in batch order. *)
Lemma fisher_loop_spec self probs labels range acc res :
  fisher_loop autograd_grad self probs labels range acc = Ok res <->
  exists grads,
    Forall2 (sample_gradient autograd_grad self probs labels) range grads /\
    res = acc ++ grads.
Proof.
  revert acc. induction range as [| i range IH]; intros acc.
  - simpl. split.
    + intros H. injection H as <-. exists []. split; [constructor |].
      symmetry. apply app_nil_r.
    + intros [grads [HF ->]]. inversion HF. rewrite app_nil_r. reflexivity.
  - rewrite fisher_step. split.
    + intros [flat [Hflat H]]. apply IH in H. destruct H as [grads [HF ->]].
      exists (flat :: grads). split; [constructor; assumption |].
      rewrite <- app_assoc. reflexivity.
    + intros [grads [HF ->]].
      inversion HF as [| i' flat range' grads' Hflat HF']; subst.
      exists flat. split; [exact Hflat |]. apply IH.
      exists grads'. split; [exact HF' |]. rewrite <- app_assoc. reflexivity.
Qed.

Lemma stack_Ok (vs : list (list R)) (t : Tensor2) :
  stack vs = Ok t -> vs <> [] /\ rows t = vs.
Proof.
  destruct vs as [| v vs]; simpl; [discriminate |].
  destruct (forallb _ vs); [| discriminate].
  intros H. injection H as <-. split; [discriminate | reflexivity].
Qed.

Lemma stack_same_length (vs : list (list R)) (K : nat) :
  vs <> [] -> Forall (fun v => length v = K) vs -> is_ok (stack vs).
Proof.
  destruct vs as [| v vs]; [congruence |]. intros _ H. simpl.
  inversion H as [| v' vs' Hv Hvs]; subst.
  assert (E : forallb (fun w => Nat.eqb (length w) (length v)) vs = true).
  { apply forallb_forall. intros w Hw. apply Nat.eqb_eq.
    exact (proj1 (Forall_forall _ _) Hvs w Hw). }
  rewrite E. eexists. reflexivity.
Qed.

Lemma compute_fisher_penalty_spec self L labels v :
  compute_fisher_penalty autograd_grad self L labels = Ok v ->
  exists grads,
    Forall2 (sample_gradient autograd_grad self (softmax L) labels)
            (seq 0 (size0 L)) grads /\
    grads <> [] /\
    v = mean (map (fun g => norm g ^ 2) grads).
Proof.
  unfold compute_fisher_penalty. intros H. bind_inv H. bind_inv H.
  apply fisher_loop_spec in E. destruct E as [grads [HF ->]]. simpl in E0.
  apply stack_Ok in E0. destruct E0 as [Hne Hrows].
  injection H as <-. exists grads. rewrite Hrows. repeat split; assumption.
Qed.

(** Without a prompt learner the Fisher penalty cannot be computed. *)
Lemma compute_fisher_penalty_None self L labels :
  prompt_learner self = None ->
  raises (compute_fisher_penalty autograd_grad self L labels).
Proof.
  intros Hnone.
  destruct (compute_fisher_penalty autograd_grad self L labels) as [v | e] eqn:E.
  - exfalso. apply compute_fisher_penalty_spec in E.
    destruct E as [grads [HF [Hne _]]].
    destruct HF as [| i flat range grads' Hflat _]; [congruence |].
    destruct Hflat as [l [p [pl [g [_ [_ [Hpl _]]]]]]]. congruence.
  - exists e. reflexivity.
Qed.

(** With a non-empty batch whose first label can be looked up, the failure
    is the attribute access on [None]. *)
Lemma compute_fisher_penalty_None_AttributeError self L labels l :
  prompt_learner self = None ->
  (0 < size0 L)%nat ->
  nth_error labels 0 = Some l ->
  label_indexable (size1 L) l ->
  compute_fisher_penalty autograd_grad self L labels = Raise AttributeError.
Proof.
  intros Hnone Hpos Hl Hidx. unfold compute_fisher_penalty.
  destruct (size0 L) as [| n] eqn:En; [lia |]. simpl seq.
  cbn [fisher_loop]. apply getitem_Ok in Hl. rewrite Hl. simpl.
  destruct (index2_Ok (softmax L) 0 l) as [p Hp].
  - rewrite size0_softmax. lia.
  - exact Hidx.
  - rewrite Hp. simpl. unfold prompt_learner_parameters. rewrite Hnone.
    reflexivity.
Qed.

Lemma fisher_loop_Ok self probs labels pl N K range acc :
  prompt_learner self = Some pl ->
  (forall i x, (i < N)%nat ->
     exists g, autograd_grad i x (learner_parameters pl) = Some g /\
               g <> [] /\ length (concat g) = K) ->
  Forall (fun i => (i < N)%nat /\ (i < size0 probs)%nat /\
                   exists l, nth_error labels i = Some l /\
                             label_indexable (size1 probs) l) range ->
  exists grads,
    fisher_loop autograd_grad self probs labels range acc = Ok (acc ++ grads) /\
    length grads = length range /\
    Forall (fun v => length v = K) grads.
Proof.
  intros Hpl Hav Hrange. revert acc.
  induction Hrange as [| i range [HiN [Hi [l [Hl Hidx]]]] _ IH]; intros acc.
  - exists []. simpl. rewrite app_nil_r. repeat split. constructor.
  - destruct (index2_Ok probs i l Hi Hidx) as [p Hp].
    destruct (Hav i (ln p) HiN) as [g [Hg [Hne HK]]].
    destruct (IH (acc ++ [concat g])) as [grads [Hloop [Hlen HKs]]].
    exists (concat g :: grads). split; [| split].
    + apply fisher_step. exists (concat g). split.
      * exists l, p, pl, g. repeat split; assumption.
      * rewrite Hloop, <- app_assoc. reflexivity.
    + simpl. rewrite Hlen. reflexivity.
    + constructor; assumption.
Qed.

Lemma compute_fisher_penalty_Ok self L labels pl :
  prompt_learner self = Some pl ->
  autograd_available autograd_grad (learner_parameters pl) (size0 L) ->
  (0 < size0 L)%nat ->
  (size0 L <= length labels)%nat ->
  Forall (label_indexable (size1 L)) labels ->
  is_ok (compute_fisher_penalty autograd_grad self L labels).
Proof.
  intros Hpl [K Hav] Hpos Hlen Hlab. unfold compute_fisher_penalty.
  destruct (fisher_loop_Ok self (softmax L) labels pl (size0 L) K
              (seq 0 (size0 L)) [] Hpl Hav) as [grads [Hloop [Hlg HK]]].
  - apply Forall_forall. intros i Hi. apply in_seq in Hi.
    rewrite size0_softmax. repeat split; try lia.
    destruct (nth_error labels i) as [l |] eqn:El.
    + exists l. split; [reflexivity |].
      apply nth_error_In in El.
      exact (proj1 (Forall_forall _ _) Hlab l El).
    + apply nth_error_None in El. lia.
  - rewrite Hloop. simpl.
    destruct (stack_same_length grads K) as [t ->].
    + rewrite length_seq in Hlg. destruct grads; [simpl in Hlg; lia | discriminate].
    + exact HK.
    + simpl. eexists. reflexivity.
Qed.

End Fisher.

(** ** The confidence-misalignment penalty *)

Lemma nth_softmax_row (r : list R) (j : nat) :
  (j < length r)%nat -> nth j (softmax_row r) 0 = Spec.softmax_prob r j.
Proof.
  intros Hj. unfold softmax_row, Spec.softmax_prob.
  set (f := fun x => exp x / sum (map exp r)).
  rewrite (nth_indep _ 0 (f 0)).
  - apply (map_nth f).
  - rewrite length_map. exact Hj.
Qed.

Lemma softmax_prob_pos (r : list R) (j : nat) :
  r <> [] -> 0 < Spec.softmax_prob r j.
Proof.
  intros Hr. unfold Spec.softmax_prob.
  apply Rdiv_lt_0_compat; [apply exp_pos | apply sum_exp_pos; exact Hr].
Qed.

Lemma nth_rows_softmax (L : Tensor2) (i : nat) :
  nth i (rows (softmax L)) [] = softmax_row (nth i (rows L) []).
Proof.
  unfold softmax. simpl.
  change (@nil R) with (softmax_row []) at 1. apply map_nth.
Qed.

(** The masked selection of the code, read as a filter over class numbers. *)
Lemma masked_as_filter (h : R -> nat -> bool) (p pre : list R) :
  map fst (filter snd
    (combine p (map (fun pj => h (fst pj) (snd pj))
                    (combine p (seq (length pre) (length p)))))) =
  map (fun j => nth j (pre ++ p) 0)
      (filter (fun j => h (nth j (pre ++ p) 0) j) (seq (length pre) (length p))).
Proof.
  revert pre. induction p as [| x p IH]; intros pre; [reflexivity |].
  cbn [length seq combine map filter snd fst].
  rewrite nth_middle.
  specialize (IH (pre ++ [x])).
  rewrite <- app_assoc in IH. cbn [app] in IH.
  rewrite length_app in IH. cbn [length] in IH.
  replace (length pre + 1)%nat with (S (length pre)) in IH by lia.
  destruct (h x (length pre)); cbn [map fst]; rewrite IH.
  - rewrite nth_middle. reflexivity.
  - reflexivity.
Qed.

Lemma excess_as_filter (p : list R) (tp : R) (l : Z) :
  excess p (length p) tp l =
  sum (map (fun j => nth j p 0)
           (filter (fun j => Rgtb (nth j p 0) tp && negb (Z.of_nat j =? l)%Z)
                   (seq 0 (length p)))).
Proof.
  unfold excess. f_equal.
  exact (masked_as_filter (fun x j => Rgtb x tp && negb (Z.of_nat j =? l)%Z) p []).
Qed.

(** On a row of the probability matrix the code's [excess_prob] is the one of
    the specification. *)
Lemma excess_softmax (r : list R) (l : nat) :
  (l < length r)%nat ->
  excess (softmax_row r) (length r) (nth l (softmax_row r) 0) (Z.of_nat l) =
  sum (map (Spec.softmax_prob r) (Spec.exceeding r l)).
Proof.
  intros Hl.
  rewrite <- (length_softmax_row r) at 1. rewrite excess_as_filter.
  rewrite length_softmax_row. unfold Spec.exceeding.
  rewrite (nth_softmax_row r l Hl).
  f_equal.
  rewrite (filter_ext_in
             (fun j => Rgtb (nth j (softmax_row r) 0) (Spec.softmax_prob r l)
                       && negb (Z.of_nat j =? Z.of_nat l)%Z)
             (fun j => negb (Nat.eqb j l)
                       && Rgtb (Spec.softmax_prob r j) (Spec.softmax_prob r l))).
  - apply map_ext_in. intros j Hj. apply filter_In in Hj. destruct Hj as [Hj _].
    apply in_seq in Hj. apply nth_softmax_row. lia.
  - intros j Hj. apply in_seq in Hj. rewrite nth_softmax_row by lia.
    rewrite andb_comm. f_equal. f_equal.
    destruct (Nat.eqb j l) eqn:E.
    + apply Nat.eqb_eq in E. subst. apply Z.eqb_refl.
    + apply Nat.eqb_neq in E. apply Z.eqb_neq. lia.
Qed.

Lemma exceeding_nonneg (r : list R) (l : nat) :
  0 <= sum (map (Spec.softmax_prob r) (Spec.exceeding r l)).
Proof.
  apply sum_nonneg. apply Forall_forall. intros x Hx.
  apply in_map_iff in Hx. destruct Hx as [j [<- Hj]].
  unfold Spec.exceeding in Hj. apply filter_In in Hj. destruct Hj as [Hj _].
  apply in_seq in Hj. left. apply softmax_prob_pos.
  destruct r; [simpl in Hj; lia | discriminate].
Qed.

Lemma excess_prob_nonneg (L : Tensor2) (labels : list Z) (i : nat) :
  0 <= Spec.excess_prob L labels i.
Proof. unfold Spec.excess_prob. apply exceeding_nonneg. Qed.

Section Cmp.

Variable L : Tensor2.
Variable labels : list Z.
Hypothesis L_rect : rectangular L.
Hypothesis labels_len : (size0 L <= length labels)%nat.
Hypothesis labels_ok : Forall (label_in_range (size1 L)) labels.

Lemma sample_lookup (i : nat) :
  (i < size0 L)%nat ->
  nth_error labels i = Some (nth i labels 0%Z) /\
  label_in_range (size1 L) (nth i labels 0%Z) /\
  length (nth i (rows L) []) = size1 L.
Proof.
  intros Hi. assert (Hil : (i < length labels)%nat) by lia.
  split; [apply nth_error_nth'; exact Hil |]. split.
  - apply (proj1 (Forall_forall _ _) labels_ok). apply nth_In. exact Hil.
  - apply (proj1 (Forall_forall _ _) L_rect). apply nth_In. exact Hi.
Qed.

(** One iteration of the loop of [compute_cmp], in the specification's
    terms. *)
Lemma cmp_step (i : nat) (range : list nat) (cmp_loss : R) :
  (i < size0 L)%nat ->
  cmp_loop (softmax L) labels (i :: range) cmp_loss =
  cmp_loop (softmax L) labels range
    (if Rlt_dec 0 (Spec.excess_prob L labels i)
     then cmp_loss + Spec.true_prob L labels i / Spec.excess_prob L labels i
     else cmp_loss).
Proof.
  intros Hi. destruct (sample_lookup i Hi) as [Hl [Hr Hrow]].
  cbn [cmp_loop]. apply getitem_Ok in Hl. rewrite Hl. simpl bind.
  rewrite index2_in_range; [| rewrite size0_softmax; exact Hi | exact Hr].
  simpl bind.
  change (map softmax_row (rows L)) with (rows (softmax L)).
  rewrite nth_rows_softmax.
  assert (Hlt : (Z.to_nat (nth i labels 0%Z) < length (nth i (rows L) []))%nat).
  { unfold label_in_range in Hr. lia. }
  rewrite <- Hrow.
  pose proof (excess_softmax (nth i (rows L) []) _ Hlt) as Hex.
  rewrite Z2Nat.id in Hex by (unfold label_in_range in Hr; lia).
  rewrite Hex. rewrite (nth_softmax_row _ _ Hlt). reflexivity.
Qed.

Lemma cmp_loop_spec (range : list nat) (cmp_loss : R) :
  Forall (fun i => (i < size0 L)%nat) range ->
  exists terms,
    Forall2 (fun i term =>
               Spec.contributes (Spec.true_prob L labels i)
                                (Spec.excess_prob L labels i) term)
            range terms /\
    cmp_loop (softmax L) labels range cmp_loss = Ok (cmp_loss + sum terms).
Proof.
  intros Hrange. revert cmp_loss.
  induction Hrange as [| i range Hi _ IH]; intros cmp_loss.
  - exists []. split; [constructor |]. simpl. f_equal. lra.
  - rewrite (cmp_step i range cmp_loss Hi).
    destruct (Rlt_dec 0 (Spec.excess_prob L labels i)) as [Hpos | Hnpos].
    + destruct (IH (cmp_loss + Spec.true_prob L labels i
                               / Spec.excess_prob L labels i))
        as [terms [HF Hloop]].
      exists (Spec.true_prob L labels i / Spec.excess_prob L labels i :: terms).
      split.
      * constructor; [| exact HF]. split; [reflexivity | lra].
      * rewrite Hloop. f_equal. simpl. unfold sum. lra.
    + destruct (IH cmp_loss) as [terms [HF Hloop]].
      exists (0 :: terms). split.
      * constructor; [| exact HF]. split; [intros H; contradiction | reflexivity].
      * rewrite Hloop. f_equal. simpl. unfold sum. lra.
Qed.

Lemma seq_below (n : nat) : Forall (fun i => (i < n)%nat) (seq 0 n).
Proof. apply Forall_forall. intros i Hi. apply in_seq in Hi. lia. Qed.

Lemma compute_cmp_refines (Hpos : (0 < size0 L)%nat) :
  exists v, compute_cmp L labels = Ok v /\ Spec.is_cmp_penalty L labels v.
Proof.
  destruct (cmp_loop_spec (seq 0 (size0 L)) 0 (seq_below _)) as [terms [HF Hloop]].
  exists (sum terms / INR (size0 L)). split.
  - unfold compute_cmp. rewrite Hloop. simpl bind.
    destruct (Nat.eqb (size0 L) 0) eqn:E.
    + apply Nat.eqb_eq in E. lia.
    + f_equal. f_equal. lra.
  - exists terms. split; [exact HF | reflexivity].
Qed.

End Cmp.

Lemma cmp_loop_Ok (probs : Tensor2) (labels : list Z) (range : list nat) (cmp_loss : R) :
  Forall (fun i => (i < size0 probs)%nat /\
                   exists l, nth_error labels i = Some l /\
                             label_indexable (size1 probs) l) range ->
  is_ok (cmp_loop probs labels range cmp_loss).
Proof.
  intros Hrange. revert cmp_loss.
  induction Hrange as [| i range [Hi [l [Hl Hidx]]] _ IH]; intros cmp_loss.
  - eexists. reflexivity.
  - cbn [cmp_loop]. apply getitem_Ok in Hl. rewrite Hl. simpl bind.
    destruct (index2_Ok probs i l Hi Hidx) as [p ->]. simpl bind. apply IH.
Qed.

Lemma compute_cmp_Ok (L : Tensor2) (labels : list Z) :
  (0 < size0 L)%nat ->
  (size0 L <= length labels)%nat ->
  Forall (label_indexable (size1 L)) labels ->
  is_ok (compute_cmp L labels).
Proof.
  intros Hpos Hlen Hlab. unfold compute_cmp.
  destruct (cmp_loop_Ok (softmax L) labels (seq 0 (size0 L)) 0) as [c ->].
  - apply Forall_forall. intros i Hi. apply in_seq in Hi.
    rewrite size0_softmax. split; [lia |].
    destruct (nth_error labels i) as [l |] eqn:El.
    + exists l. split; [reflexivity |]. apply nth_error_In in El.
      exact (proj1 (Forall_forall _ _) Hlab l El).
    + apply nth_error_None in El. lia.
  - simpl bind. destruct (Nat.eqb (size0 L) 0) eqn:E.
    + apply Nat.eqb_eq in E. lia.
    + eexists. reflexivity.
Qed.

(** An empty batch divides the float 0.0 by the int 0. *)
Lemma compute_cmp_empty (L : Tensor2) (labels : list Z) :
  size0 L = 0%nat -> compute_cmp L labels = Raise ZeroDivisionError.
Proof. intros H. unfold compute_cmp. rewrite H. reflexivity. Qed.

(** ** The forward pass *)

Section Forward.

Context {Images TextTokens : Type}.
Variable autograd_grad : nat -> R -> list Param -> option (list (list R)).
Implicit Types (self : CalShift Images TextTokens).

(** [forward] runs through on a square, non-empty batch with matching
    embedding dimensions, labels that both the cross-entropy and the
    indexing accept, and a prompt learner whose gradients are available.
    Nothing is asked of the values of the embeddings. *)
Lemma forward_Ok self images text_tokens labels pl :
  same_embedding_dim (clip_model self) images text_tokens ->
  num_images (clip_model self) images = num_prompts (clip_model self) text_tokens ->
  (0 < num_images (clip_model self) images)%nat ->
  length labels = num_images (clip_model self) images ->
  Forall (fun l => target_accepted (num_prompts (clip_model self) text_tokens) l /\
                   label_indexable (num_prompts (clip_model self) text_tokens) l)
         labels ->
  prompt_learner self = Some pl ->
  autograd_available autograd_grad (learner_parameters pl)
                     (num_images (clip_model self) images) ->
  is_ok (forward autograd_grad self images text_tokens labels).
Proof.
  intros Hd Hsq Hpos Hlen Hlab Hpl Hav. unfold forward.
  destruct (compute_logits_Ok self images text_tokens Hd)
    as [L [-> [HN [HM _]]]]. simpl bind.
  assert (Hacc : Forall (target_accepted (size1 L)) labels).
  { rewrite HM. eapply Forall_impl; [| exact Hlab]. intros l [H _]. exact H. }
  assert (Hidx : Forall (label_indexable (size1 L)) labels).
  { rewrite HM. eapply Forall_impl; [| exact Hlab]. intros l [_ H]. exact H. }
  destruct (contrastive_loss_Ok L labels) as [c ->]; try congruence.
  simpl bind.
  destruct (compute_fisher_penalty_Ok autograd_grad self L labels pl)
    as [f ->]; try assumption; try lia.
  { rewrite HN. exact Hav. }
  simpl bind.
  destruct (compute_cmp_Ok L labels) as [m ->]; try assumption; try lia.
  simpl bind. eexists. reflexivity.
Qed.

Lemma valid_labels_accepted (M : nat) (labels : list Z) :
  Forall (label_in_range M) labels ->
  Forall (fun l => target_accepted M l /\ label_indexable M l) labels.
Proof.
  intros H. eapply Forall_impl; [| exact H]. intros l Hl.
  split; [right; exact Hl | apply in_range_indexable; exact Hl].
Qed.

(** What a returned report contains. *)
Lemma forward_report self images text_tokens labels r :
  forward autograd_grad self images text_tokens labels = Ok r ->
  compute_logits self images text_tokens = Ok (logits r) /\
  contrastive_loss (logits r) labels = Ok (clip_loss r) /\
  compute_fisher_penalty autograd_grad self (logits r) labels = Ok (fim_penalty r) /\
  compute_cmp (logits r) labels = Ok (cmp_penalty r) /\
  loss r = clip_loss r + lambda_fim self * fim_penalty r
           + lambda_cmp self * cmp_penalty r.
Proof.
  unfold forward. intros H.
  bind_inv H. bind_inv H. bind_inv H. bind_inv H.
  injection H as <-. simpl. repeat split; assumption.
Qed.

End Forward.

(** ** Facts about the concrete batches *)

Lemma demo_autograd_available (inputs : list Param) (N : nat) :
  autograd_available Demo.fixed_autograd inputs N.
Proof.
  exists 3%nat. intros i x _. exists [[1; 2]; [2]].
  repeat split. discriminate.
Qed.

Lemma norm_zero_vector : norm [0] = 0.
Proof.
  unfold norm. simpl. replace (0 * 0 + 0) with 0 by lra. apply sqrt_0.
Qed.

Lemma demo_ignored_labels_accepted :
  Forall (fun l => target_accepted 100 l /\ label_indexable 100 l)
         Demo.ignored_labels.
Proof.
  unfold Demo.ignored_labels. constructor.
  - split; [left; reflexivity |].
    unfold label_indexable, ignore_index. lia.
  - apply Forall_forall. intros l Hl. apply repeat_spec in Hl. subst l.
    split; [right |]; unfold label_in_range, label_indexable; lia.
Qed.

(** ** Uniqueness and vanishing of the per-sample terms *)

Lemma filter_none {A : Type} (f : A -> bool) (l : list A) :
  (forall a, In a l -> f a = false) -> filter f l = [].
Proof.
  induction l as [| a l IH]; intros H; [reflexivity |]. simpl.
  rewrite (H a (or_introl eq_refl)). apply IH.
  intros b Hb. apply H. right. exact Hb.
Qed.

Lemma contributes_unique (tp ex t t' : R) :
  0 <= ex -> Spec.contributes tp ex t -> Spec.contributes tp ex t' -> t = t'.
Proof.
  intros Hex [Hpos Hzero] [Hpos' Hzero'].
  destruct Hex as [Hlt | Heq].
  - rewrite (Hpos Hlt), (Hpos' Hlt). reflexivity.
  - symmetry in Heq. rewrite (Hzero Heq), (Hzero' Heq). reflexivity.
Qed.

Lemma contributions_unique (L : Tensor2) (labels : list Z) (range : list nat)
    (terms terms' : list R) :
  Forall2 (fun i term =>
             Spec.contributes (Spec.true_prob L labels i)
                              (Spec.excess_prob L labels i) term) range terms ->
  Forall2 (fun i term =>
             Spec.contributes (Spec.true_prob L labels i)
                              (Spec.excess_prob L labels i) term) range terms' ->
  terms = terms'.
Proof.
  intros HF. revert terms'.
  induction HF as [| i t range terms Ht _ IH]; intros terms' HF'.
  - inversion HF'. reflexivity.
  - inversion HF' as [| i' t' range' terms0 Ht' HF0]; subst. f_equal.
    + exact (contributes_unique _ _ t t' (excess_prob_nonneg L labels i) Ht Ht').
    + apply IH. exact HF0.
Qed.

Lemma contributions_zero (L : Tensor2) (labels : list Z) (range : list nat)
    (terms : list R) :
  Forall2 (fun i term =>
             Spec.contributes (Spec.true_prob L labels i)
                              (Spec.excess_prob L labels i) term) range terms ->
  Forall (fun i => Spec.excess_prob L labels i = 0) range ->
  sum terms = 0.
Proof.
  induction 1 as [| i t range terms [_ Ht] _ IH]; intros Hz; [reflexivity |].
  inversion Hz as [| i' range' Hi Hrange]; subst.
  specialize (IH Hrange). unfold sum in *. simpl. rewrite (Ht Hi), IH. lra.
Qed.

(** When the labeled class dominates its row no class is exceeding. *)
Lemma dominated_excess_zero (L : Tensor2) (labels : list Z) (i : nat) :
  length (nth i (rows L) []) = size1 L ->
  Spec.label_dominates L labels i ->
  Spec.excess_prob L labels i = 0.
Proof.
  intros Hrow Hdom. unfold Spec.excess_prob, Spec.exceeding.
  rewrite filter_none; [reflexivity |].
  intros j Hj. apply in_seq in Hj.
  destruct (Nat.eqb j (Z.to_nat (nth i labels 0%Z))) eqn:E; [reflexivity |].
  apply Nat.eqb_neq in E. simpl. unfold Rgtb.
  assert (Hlt := Hdom j ltac:(lia) E). unfold Spec.true_prob in Hlt.
  destruct (Rlt_dec _ _) as [Hgt | _]; [lra | reflexivity].
Qed.

(** ** Reordering the batch *)

Lemma map_nth_seq {A : Type} (l : list A) (d : A) :
  map (fun k => nth k l d) (seq 0 (length l)) = l.
Proof.
  apply (nth_ext _ _ d d).
  - rewrite length_map, length_seq. reflexivity.
  - intros k Hk. rewrite length_map, length_seq in Hk.
    rewrite (nth_indep _ d ((fun k => nth k l d) O))
      by (rewrite length_map, length_seq; exact Hk).
    rewrite (map_nth (fun k => nth k l d)). rewrite seq_nth by exact Hk.
    reflexivity.
Qed.

Lemma map_as_seq {A B : Type} (f : A -> B) (l : list A) (d : A) :
  map f l = map (fun k => f (nth k l d)) (seq 0 (length l)).
Proof.
  rewrite <- (map_nth_seq l d) at 1. rewrite map_map. reflexivity.
Qed.

Lemma combine_map_both {A B C : Type} (f : A -> B) (g : A -> C) (l : list A) :
  combine (map f l) (map g l) = map (fun a => (f a, g a)) l.
Proof.
  induction l as [| a l IH]; [reflexivity |]. simpl. rewrite IH. reflexivity.
Qed.

Lemma combine_as_seq {A B : Type} (u : list A) (v : list B) (da : A) (db : B) :
  length u = length v ->
  combine u v = map (fun i => (nth i u da, nth i v db)) (seq 0 (length u)).
Proof.
  intros Hlen.
  rewrite <- (combine_map_both (fun i => nth i u da) (fun i => nth i v db)).
  rewrite map_nth_seq. rewrite Hlen, map_nth_seq. reflexivity.
Qed.

Lemma position_spec (sigma : list nat) (k : nat) :
  In k sigma ->
  (position sigma k < length sigma)%nat /\ nth (position sigma k) sigma O = k.
Proof.
  induction sigma as [| j sigma IH]; intros Hin; [destruct Hin |]. simpl.
  destruct (Nat.eqb j k) eqn:E.
  - apply Nat.eqb_eq in E. split; [lia | exact E].
  - apply Nat.eqb_neq in E. destruct Hin as [Heq | Hin]; [contradiction |].
    destruct (IH Hin) as [Hlt Hnth]. split; [lia | exact Hnth].
Qed.

Section Reordering.

Variable n : nat.
Variable sigma : list nat.
Hypothesis sigma_perm : Permutation sigma (seq 0 n).

Lemma sigma_length : length sigma = n.
Proof. rewrite (Permutation_length sigma_perm). apply length_seq. Qed.

Lemma sigma_in (k : nat) : In k sigma <-> (k < n)%nat.
Proof.
  split.
  - intros H. apply (Permutation_in _ sigma_perm) in H. apply in_seq in H. lia.
  - intros H. apply (Permutation_in _ (Permutation_sym sigma_perm)).
    apply in_seq. lia.
Qed.

(** A sum over the reordered samples is the sum over the samples. *)
Lemma sum_over_sigma (f : nat -> R) :
  sum (map f sigma) = sum (map f (seq 0 n)).
Proof. apply sum_Permutation. apply Permutation_map. exact sigma_perm. Qed.

Lemma permute_vector_Permutation (r : list R) :
  length r = n -> Permutation (permute_vector sigma r) r.
Proof.
  intros Hr. unfold permute_vector.
  apply (Permutation_trans (l' := map (fun j => nth j r 0) (seq 0 n))).
  - apply Permutation_map. exact sigma_perm.
  - rewrite <- Hr, map_nth_seq. apply Permutation_refl.
Qed.

Lemma length_permute_vector (r : list R) : length (permute_vector sigma r) = n.
Proof. unfold permute_vector. rewrite length_map. apply sigma_length. Qed.

Lemma nth_permute_vector (r : list R) (k : nat) :
  (k < n)%nat -> nth (position sigma k) (permute_vector sigma r) 0 = nth k r 0.
Proof.
  intros Hk. destruct (position_spec sigma k (proj2 (sigma_in k) Hk)) as [Hlt Hnth].
  unfold permute_vector.
  rewrite (nth_indep _ 0 ((fun j => nth j r 0) O)) by (rewrite length_map; exact Hlt).
  rewrite (map_nth (fun j => nth j r 0)). rewrite Hnth. reflexivity.
Qed.

(** The probability of a class does not depend on the order of the
    classes. *)
Lemma softmax_prob_permute (r : list R) (k : nat) :
  length r = n -> (k < n)%nat ->
  Spec.softmax_prob (permute_vector sigma r) (position sigma k)
  = Spec.softmax_prob r k.
Proof.
  intros Hr Hk. unfold Spec.softmax_prob.
  rewrite (nth_permute_vector r k Hk).
  rewrite (sum_Permutation (map exp (permute_vector sigma r)) (map exp r)).
  - reflexivity.
  - apply Permutation_map. apply permute_vector_Permutation. exact Hr.
Qed.

Lemma permute_labels_in_range (labels : list Z) :
  Forall (label_in_range n) labels ->
  length labels = n ->
  Forall (label_in_range n) (permute_labels sigma labels).
Proof.
  intros Hlab Hlen. unfold permute_labels. apply Forall_forall.
  intros l Hl. apply in_map_iff in Hl. destruct Hl as [i [<- Hi]].
  apply sigma_in in Hi.
  assert (Hr : label_in_range n (nth i labels 0%Z)).
  { apply (proj1 (Forall_forall _ _) Hlab). apply nth_In. lia. }
  unfold label_in_range in *.
  destruct (position_spec sigma (Z.to_nat (nth i labels 0%Z))) as [Hlt _].
  { apply sigma_in. lia. }
  rewrite sigma_length in Hlt. lia.
Qed.

End Reordering.

(** The summed negative log-likelihood when every target is a class. *)
Lemma nll_sum_valid (C : nat) (input : list (list R)) (target : list Z) :
  length input = length target ->
  Forall (label_in_range C) target ->
  nll_sum C input target =
  Ok (sum (map (fun p => - ln (nth (Z.to_nat (snd p)) (softmax_row (fst p)) 0))
               (combine input target)),
      length target).
Proof.
  revert target. induction input as [| r input IH]; intros [| t target] Hlen Hlab;
    simpl in Hlen; try discriminate Hlen; [reflexivity |].
  injection Hlen as Hlen. inversion Hlab as [| t' target' Ht Htarget]; subst.
  simpl. rewrite (in_range_not_ignored C t Ht), (range_test_true C t Ht).
  rewrite (IH target Hlen Htarget). reflexivity.
Qed.

Lemma cross_entropy_valid (L : Tensor2) (labels : list Z) :
  size0 L = length labels ->
  Forall (label_in_range (size1 L)) labels ->
  cross_entropy L labels =
  Ok (sum (map (fun i => - ln (nth (Z.to_nat (nth i labels 0%Z))
                                   (softmax_row (nth i (rows L) [])) 0))
               (seq 0 (size0 L)))
      / INR (size0 L)).
Proof.
  intros Hlen Hlab. unfold cross_entropy.
  pose proof Hlen as Hlen'. apply Nat.eqb_eq in Hlen'. rewrite Hlen'.
  rewrite (nll_sum_valid _ _ _ Hlen Hlab). simpl bind. cbn [fst snd].
  rewrite (combine_as_seq (rows L) labels [] 0%Z Hlen), map_map.
  cbn [fst snd]. rewrite <- Hlen. reflexivity.
Qed.

Lemma nth_map_lt {A B : Type} (f : A -> B) (l : list A) (k : nat) (d : A) (d' : B) :
  (k < length l)%nat -> nth k (map f l) d' = f (nth k l d).
Proof.
  intros Hk. rewrite (nth_indep _ d' (f d)) by (rewrite length_map; exact Hk).
  apply map_nth.
Qed.

Section ReorderedLoss.

Variable n : nat.
Variable sigma : list nat.
Hypothesis sigma_perm : Permutation sigma (seq 0 n).

Variable L : Tensor2.
Hypothesis L_rows : size0 L = n.
Hypothesis L_cols : size1 L = n.
Hypothesis L_rect : rectangular L.

Lemma row_length (i : nat) : (i < n)%nat -> length (nth i (rows L) []) = n.
Proof.
  intros Hi. rewrite <- L_cols.
  apply (proj1 (Forall_forall _ _) L_rect). apply nth_In.
  unfold size0 in L_rows. lia.
Qed.

Lemma size0_permute_logits : size0 (permute_logits sigma L) = n.
Proof.
  unfold size0, permute_logits. simpl. rewrite length_map.
  apply (sigma_length n sigma sigma_perm).
Qed.

(** Reordering commutes with transposition. *)
Lemma transpose_permute_logits :
  transpose (permute_logits sigma L) = permute_logits sigma (transpose L).
Proof.
  pose proof (sigma_length n sigma sigma_perm) as Hsl.
  unfold permute_logits. unfold transpose at 1. cbn [rows size1].
  f_equal.
  - rewrite (map_as_seq (fun i => permute_vector sigma (nth i (rows (transpose L)) []))
                        sigma O).
    rewrite Hsl, L_cols. apply map_ext_in. intros k Hk. apply in_seq in Hk.
    rewrite map_map. unfold permute_vector at 2. apply map_ext_in.
    intros i Hi. apply (sigma_in n sigma sigma_perm) in Hi.
    unfold permute_vector.
    rewrite (nth_map_lt (fun j => nth j (nth i (rows L) []) 0) sigma k O 0)
      by lia.
    assert (Hsk : (nth k sigma O < n)%nat).
    { apply (sigma_in n sigma sigma_perm). apply nth_In. lia. }
    unfold transpose. cbn [rows].
    rewrite (nth_map_lt (fun j => map (fun r => nth j r 0) (rows L))
                        (seq 0 (size1 L)) (nth k sigma O) O [])
      by (rewrite length_seq; lia).
    rewrite seq_nth by lia. cbn [Nat.add].
    rewrite (nth_map_lt (fun r => nth (nth k sigma O) r 0) (rows L) i [] 0).
    + reflexivity.
    + unfold size0 in L_rows. lia.
  - unfold size0 at 1. cbn [rows size1 transpose]. rewrite length_map, Hsl.
    symmetry. exact L_rows.
Qed.

Variable labels : list Z.
Hypothesis labels_len : length labels = n.
Hypothesis labels_ok : Forall (label_in_range n) labels.

Lemma label_below (i : nat) :
  (i < n)%nat -> (Z.to_nat (nth i labels 0%Z) < n)%nat /\
                 (0 <= nth i labels 0%Z)%Z.
Proof.
  intros Hi.
  assert (Hr : label_in_range n (nth i labels 0%Z)).
  { apply (proj1 (Forall_forall _ _) labels_ok). apply nth_In. lia. }
  unfold label_in_range in Hr. lia.
Qed.

(** The row-direction cross-entropy of the reordered batch. *)
Lemma cross_entropy_permute :
  cross_entropy (permute_logits sigma L) (permute_labels sigma labels)
  = cross_entropy L labels.
Proof.
  pose proof (sigma_length n sigma sigma_perm) as Hsl.
  rewrite (cross_entropy_valid L labels);
    [| congruence | rewrite L_cols; exact labels_ok].
  unfold cross_entropy. rewrite size0_permute_logits.
  assert (Hpl : length (permute_labels sigma labels) = n).
  { unfold permute_labels. rewrite length_map. exact Hsl. }
  rewrite Hpl, Nat.eqb_refl.
  rewrite nll_sum_valid.
  - simpl bind. cbn [fst snd]. rewrite Hpl, L_rows. f_equal. f_equal.
    cbn [rows permute_logits]. unfold permute_labels.
    rewrite combine_map_both, map_map. cbn [fst snd].
    rewrite <- (sum_over_sigma n sigma sigma_perm).
    apply sum_map_ext_in. intros i Hi.
    apply (sigma_in n sigma sigma_perm) in Hi.
    destruct (label_below i Hi) as [Hk _].
    pose proof (row_length i Hi) as Hrow.
    rewrite Nat2Z.id. f_equal. f_equal.
    rewrite nth_softmax_row.
    + rewrite (softmax_prob_permute n sigma sigma_perm _ _ Hrow Hk).
      symmetry. apply nth_softmax_row. lia.
    + rewrite (length_permute_vector n sigma sigma_perm).
      destruct (position_spec sigma (Z.to_nat (nth i labels 0%Z))) as [Hlt _].
      * apply (sigma_in n sigma sigma_perm). exact Hk.
      * lia.
  - cbn [rows permute_logits]. rewrite length_map. congruence.
  - cbn [size1 permute_logits]. rewrite L_cols.
    apply (permute_labels_in_range n sigma sigma_perm); assumption.
Qed.

End ReorderedLoss.

Lemma rectangular_transpose (L : Tensor2) : rectangular (transpose L).
Proof.
  unfold rectangular, transpose. simpl. apply Forall_forall.
  intros r Hr. apply in_map_iff in Hr. destruct Hr as [j [<- _]].
  rewrite length_map. reflexivity.
Qed.

(** ** What a returning call of [forward] tells *)

Lemma wrap_index_Ok_inv (n : nat) (k : Z) (j : nat) :
  wrap_index n k = Ok j -> label_indexable n k.
Proof.
  unfold wrap_index, label_indexable. intros H.
  destruct ((0 <=? k)%Z && (k <? Z.of_nat n)%Z) eqn:E.
  - apply andb_prop in E. destruct E as [E0 E1].
    apply Z.leb_le in E0. apply Z.ltb_lt in E1. lia.
  - destruct ((- Z.of_nat n <=? k)%Z && (k <? 0)%Z) eqn:E'; [| discriminate H].
    apply andb_prop in E'. destruct E' as [E0 E1].
    apply Z.leb_le in E0. apply Z.ltb_lt in E1. lia.
Qed.

Lemma accepted_or_rejected (C : nat) (target : list Z) :
  Forall (target_accepted C) target \/ Exists (target_rejected C) target.
Proof.
  induction target as [| t target IH]; [left; constructor |].
  destruct (target_accepted_dec C t) as [Ha | Hr].
  - destruct IH as [IH | IH].
    + left. constructor; assumption.
    + right. apply Exists_cons_tl. exact IH.
  - right. apply Exists_cons_hd. exact Hr.
Qed.

Lemma cross_entropy_Ok_accepted (input : Tensor2) (target : list Z) (v : R) :
  cross_entropy input target = Ok v ->
  Forall (target_accepted (size1 input)) target.
Proof.
  intros H. pose proof (cross_entropy_Ok_size input target v H) as Hlen.
  destruct (accepted_or_rejected (size1 input) target) as [Ha | Hr];
    [exact Ha |].
  rewrite (cross_entropy_rejected input target Hlen Hr) in H. discriminate H.
Qed.

Lemma index2_Ok_inv (t : Tensor2) (i : nat) (k : Z) (p : R) :
  index2 t i k = Ok p -> (i < size0 t)%nat /\ label_indexable (size1 t) k.
Proof.
  unfold index2, size0. destruct (nth_error (rows t) i) as [r |] eqn:Er;
    [| discriminate].
  intros H. bind_inv H. split.
  - apply nth_error_Some. congruence.
  - exact (wrap_index_Ok_inv _ _ _ E).
Qed.

Lemma Forall2_left_lookup {A B : Type} (P : A -> B -> Prop) (l : list A) (l' : list B) :
  Forall2 P l l' -> forall a, In a l -> exists b, P a b.
Proof.
  induction 1 as [| a b l l' Hab _ IH]; intros x Hx; [destruct Hx |].
  destruct Hx as [<- | Hx]; [exists b; exact Hab | exact (IH x Hx)].
Qed.

Section ForwardReturns.

Context {Images TextTokens : Type}.
Variable autograd_grad : nat -> R -> list Param -> option (list (list R)).
Implicit Types (self : CalShift Images TextTokens).

(** What a call that returns tells about the instance and the batch. *)
Lemma forward_Ok_inv self images text_tokens labels r :
  forward autograd_grad self images text_tokens labels = Ok r ->
  same_embedding_dim (clip_model self) images text_tokens /\
  num_images (clip_model self) images = num_prompts (clip_model self) text_tokens /\
  (0 < num_images (clip_model self) images)%nat /\
  length labels = num_images (clip_model self) images /\
  Forall (fun l => target_accepted (num_prompts (clip_model self) text_tokens) l /\
                   label_indexable (num_prompts (clip_model self) text_tokens) l)
         labels /\
  prompt_learner self <> None.
Proof.
  intros H.
  destruct (forward_report autograd_grad self images text_tokens labels r H)
    as [HL [Hc [Hf _]]].
  apply compute_logits_shape in HL. destruct HL as [Hd [HN [HM _]]].
  pose proof (contrastive_loss_Ok_square _ _ _ Hc) as [H0 H1].
  unfold contrastive_loss in Hc. bind_inv Hc.
  apply cross_entropy_Ok_accepted in E.
  apply compute_fisher_penalty_spec in Hf.
  destruct Hf as [grads [HF [Hne _]]].
  assert (Hpos : (0 < size0 (logits r))%nat).
  { pose proof (Forall2_length HF) as Hl. rewrite length_seq in Hl.
    destruct grads; [congruence | simpl in Hl; lia]. }
  assert (Hsample : forall i, (i < size0 (logits r))%nat ->
            exists l, nth_error labels i = Some l /\
                      label_indexable (size1 (logits r)) l /\
                      prompt_learner self <> None).
  { intros i Hi.
    destruct (Forall2_left_lookup _ _ _ HF i) as [flat Hflat];
      [apply in_seq; lia |].
    destruct Hflat as [l [p [pl [g [Hl [Hp [Hpl _]]]]]]].
    exists l. split; [exact Hl |]. split.
    - apply index2_Ok_inv in Hp. exact (proj2 Hp).
    - congruence. }
  split; [exact Hd |]. split; [congruence |]. split; [congruence |].
  split; [congruence |]. split.
  - rewrite <- HM. apply Forall_forall. intros l Hl.
    split; [exact (proj1 (Forall_forall _ _) E l Hl) |].
    apply In_nth_error in Hl. destruct Hl as [i Hi].
    assert (Hlt : (i < size0 (logits r))%nat).
    { rewrite H0. apply nth_error_Some. congruence. }
    destruct (Hsample i Hlt) as [l' [Hl' [Hidx _]]]. congruence.
  - destruct (Hsample 0%nat Hpos) as [_ [_ [_ Hpl]]]. exact Hpl.
Qed.

End ForwardReturns.

(** ** The claims *)

(** C1.  For every batch on which [forward] returns, the report's total loss
    is the contrastive loss plus [lambda_fim] times the Fisher penalty plus
    [lambda_cmp] times the confidence-misalignment penalty, each being the
    value its own computation returned on the report's logits; with both
    weights zero the total loss is the contrastive loss. *)
Theorem total_loss_composition
    {Images TextTokens : Type}
    (autograd_grad : nat -> R -> list Param -> option (list (list R)))
    (self : CalShift Images TextTokens) (images : Images)
    (text_tokens : TextTokens) (labels : list Z) (r : Report) :
  forward autograd_grad self images text_tokens labels = Ok r ->
  contrastive_loss (logits r) labels = Ok (clip_loss r) /\
  compute_fisher_penalty autograd_grad self (logits r) labels = Ok (fim_penalty r) /\
  compute_cmp (logits r) labels = Ok (cmp_penalty r) /\
  loss r = clip_loss r + lambda_fim self * fim_penalty r
           + lambda_cmp self * cmp_penalty r /\
  (lambda_fim self = 0 -> lambda_cmp self = 0 -> loss r = clip_loss r).
Proof.
  intros H.
  destruct (forward_report autograd_grad self images text_tokens labels r H)
    as [_ [Hc [Hf [Hm Hsum]]]].
  repeat split; try assumption.
  intros Hf0 Hm0. rewrite Hsum, Hf0, Hm0. lra.
Qed.

Lemma total_loss_composition_witness :
  exists r,
    forward Demo.fixed_autograd
      (Demo.with_learner (Demo.constant_embeddings 1 1)
                         (Demo.constant_embeddings 1 1) 0 0)
      tt tt [0%Z] = Ok r /\
    loss r = clip_loss r.
Proof.
  destruct (forward_Ok Demo.fixed_autograd
              (Demo.with_learner (Demo.constant_embeddings 1 1)
                                 (Demo.constant_embeddings 1 1) 0 0)
              tt tt [0%Z] Demo.learner) as [r Hr].
  - reflexivity.
  - reflexivity.
  - cbv; lia.
  - reflexivity.
  - constructor; [| constructor].
    split; [right |]; unfold label_in_range, label_indexable; simpl; lia.
  - reflexivity.
  - apply demo_autograd_available.
  - exists r. split; [exact Hr |].
    apply (total_loss_composition Demo.fixed_autograd _ tt tt [0%Z] r Hr);
      reflexivity.
Defined.

(** C2.  On a non-empty logits matrix with one label in [0, M) per row,
    [compute_cmp] returns the batch mean of the per-sample terms of the
    specification: [true_prob / excess_prob] where [excess_prob > 0] and 0
    where [excess_prob = 0], [true_prob] being the softmax probability of the
    labeled class and [excess_prob] the summed probability of the other
    classes strictly above it.  Since [excess_prob] is never negative, that
    mean is the only value answering the description. *)
Theorem compute_cmp_is_batch_mean (L : Tensor2) (labels : list Z) :
  rectangular L ->
  (0 < size0 L)%nat ->
  length labels = size0 L ->
  Forall (label_in_range (size1 L)) labels ->
  exists v,
    compute_cmp L labels = Ok v /\
    Spec.is_cmp_penalty L labels v /\
    (forall i, 0 <= Spec.excess_prob L labels i) /\
    (forall v', Spec.is_cmp_penalty L labels v' -> v' = v).
Proof.
  intros Hrect Hpos Hlen Hlab.
  destruct (compute_cmp_refines L labels Hrect ltac:(lia) Hlab Hpos)
    as [v [Hv Hspec]].
  exists v. split; [exact Hv |]. split; [exact Hspec |]. split.
  - intros i. apply excess_prob_nonneg.
  - intros v' [terms' [HF' ->]]. destruct Hspec as [terms [HF ->]].
    rewrite (contributions_unique L labels _ terms' terms HF' HF). reflexivity.
Qed.

Lemma compute_cmp_is_batch_mean_witness :
  exists v,
    compute_cmp (mkTensor2 [[1; 0]; [0; 1]] 2) [1%Z; 1%Z] = Ok v /\
    Spec.is_cmp_penalty (mkTensor2 [[1; 0]; [0; 1]] 2) [1%Z; 1%Z] v.
Proof.
  destruct (compute_cmp_is_batch_mean (mkTensor2 [[1; 0]; [0; 1]] 2) [1%Z; 1%Z])
    as [v [Hv [Hspec _]]].
  - repeat constructor.
  - cbv; lia.
  - reflexivity.
  - repeat constructor; unfold label_in_range; simpl; lia.
  - exists v. split; assumption.
Defined.

(** C3.  The constructor leaves [prompt_learner] at [None] and [forward]
    computes the Fisher penalty whatever [lambda_fim] is, so every call of
    [forward] on an instance as constructed raises; on a square, non-empty
    batch with matching embedding dimensions and labels in range the
    exception is the [AttributeError] of [self.prompt_learner.parameters()]
    in [compute_fisher_penalty]. *)
Theorem forward_as_constructed_fails
    {Images TextTokens : Type}
    (autograd_grad : nat -> R -> list Param -> option (list (list R)))
    (clip_model0 : ClipModel Images TextTokens) (lambda_fim0 lambda_cmp0 : R)
    (images : Images) (text_tokens : TextTokens) (labels : list Z) :
  let self := snd (__init__ clip_model0 lambda_fim0 lambda_cmp0) in
  prompt_learner self = None /\
  raises (forward autograd_grad self images text_tokens labels) /\
  (same_embedding_dim (clip_model self) images text_tokens ->
   num_images (clip_model self) images = num_prompts (clip_model self) text_tokens ->
   (0 < num_images (clip_model self) images)%nat ->
   labels_valid (clip_model self) images text_tokens labels ->
   forward autograd_grad self images text_tokens labels = Raise AttributeError /\
   exists L c,
     compute_logits self images text_tokens = Ok L /\
     contrastive_loss L labels = Ok c /\
     compute_fisher_penalty autograd_grad self L labels = Raise AttributeError).
Proof.
  intros self.
  assert (Hnone : prompt_learner self = None) by reflexivity.
  split; [exact Hnone |]. split.
  - unfold forward. apply raises_bind_r. intros L.
    apply raises_bind_r. intros c. apply raises_bind_l.
    apply compute_fisher_penalty_None. exact Hnone.
  - intros Hd Hsq Hpos [Hlen Hlab].
    destruct (compute_logits_Ok self images text_tokens Hd)
      as [L [HL [HN [HM _]]]].
    destruct (contrastive_loss_Ok L labels) as [c Hc]; try congruence.
    { rewrite HM. eapply Forall_impl; [| exact Hlab]. intros l Hl. right. exact Hl. }
    assert (Hf : compute_fisher_penalty autograd_grad self L labels
                 = Raise AttributeError).
    { destruct labels as [| l labels];
        [rewrite <- Hlen in Hpos; inversion Hpos |].
      apply (compute_fisher_penalty_None_AttributeError autograd_grad self L _ l).
      - exact Hnone.
      - lia.
      - reflexivity.
      - rewrite HM. apply in_range_indexable.
        inversion Hlab; assumption. }
    split.
    + unfold forward. rewrite HL. simpl bind. rewrite Hc. simpl bind.
      rewrite Hf. reflexivity.
    + exists L, c. repeat split; assumption.
Qed.

Lemma forward_as_constructed_fails_witness :
  forward Demo.fixed_autograd
    (Demo.as_constructed (Demo.constant_embeddings 1 1)
                         (Demo.constant_embeddings 1 1) 0 (4 / 10))
    tt tt [0%Z] = Raise AttributeError.
Proof.
  apply (forward_as_constructed_fails Demo.fixed_autograd
           (Demo.fixed_clip (Demo.constant_embeddings 1 1)
                            (Demo.constant_embeddings 1 1))
           0 (4 / 10) tt tt [0%Z]).
  - reflexivity.
  - reflexivity.
  - cbv; lia.
  - split; [reflexivity |]. constructor; [| constructor].
    unfold label_in_range; simpl; lia.
Defined.

(** C4.  [forward] returns only when the number of images equals the number
    of text prompts: with N different from M every call raises, and when the
    embedding dimensions match and every label lies in [0, M) the exception
    is the batch-size [ValueError] of the column-direction cross-entropy,
    which receives the transposed M x N logits with the N labels, after the
    row-direction cross-entropy has returned. *)
Theorem forward_requires_square_batch
    {Images TextTokens : Type}
    (autograd_grad : nat -> R -> list Param -> option (list (list R)))
    (self : CalShift Images TextTokens) (images : Images)
    (text_tokens : TextTokens) (labels : list Z) :
  num_images (clip_model self) images <> num_prompts (clip_model self) text_tokens ->
  raises (forward autograd_grad self images text_tokens labels) /\
  (same_embedding_dim (clip_model self) images text_tokens ->
   labels_valid (clip_model self) images text_tokens labels ->
   forward autograd_grad self images text_tokens labels = Raise ValueError /\
   exists L by_row,
     compute_logits self images text_tokens = Ok L /\
     cross_entropy L labels = Ok by_row /\
     cross_entropy (transpose L) labels = Raise ValueError).
Proof.
  intros Hne. split.
  - destruct (forward autograd_grad self images text_tokens labels) as [r | e] eqn:E.
    + exfalso.
      destruct (forward_report autograd_grad self images text_tokens labels r E)
        as [HL [Hc _]].
      apply compute_logits_shape in HL. destruct HL as [_ [HN [HM _]]].
      apply contrastive_loss_Ok_square in Hc. destruct Hc as [H0 H1].
      apply Hne. congruence.
    + exists e. reflexivity.
  - intros Hd [Hlen Hlab].
    destruct (compute_logits_Ok self images text_tokens Hd)
      as [L [HL [HN [HM _]]]].
    destruct (cross_entropy_Ok L labels) as [by_row Hrow].
    { congruence. }
    { rewrite HM. eapply Forall_impl; [| exact Hlab]. intros l Hl. right. exact Hl. }
    assert (Hcol : cross_entropy (transpose L) labels = Raise ValueError).
    { apply cross_entropy_batch_mismatch. rewrite size0_transpose. congruence. }
    split.
    + unfold forward. rewrite HL. simpl bind. unfold contrastive_loss.
      rewrite Hrow. simpl bind. rewrite Hcol. reflexivity.
    + exists L, by_row. repeat split; assumption.
Qed.

Lemma forward_requires_square_batch_witness :
  forward Demo.fixed_autograd
    (Demo.with_learner (Demo.constant_embeddings 2 1)
                       (Demo.constant_embeddings 1 1) (4 / 10) (4 / 10))
    tt tt [0%Z; 0%Z] = Raise ValueError.
Proof.
  apply (forward_requires_square_batch Demo.fixed_autograd
           (Demo.with_learner (Demo.constant_embeddings 2 1)
                              (Demo.constant_embeddings 1 1) (4 / 10) (4 / 10))
           tt tt [0%Z; 0%Z]).
  - cbv; lia.
  - reflexivity.
  - split; [reflexivity |].
    repeat constructor; unfold label_in_range; simpl; lia.
Defined.

(** C5.  For a square logits matrix with one label in range per row, the
    contrastive loss returns, and it returns the same value when rows and
    columns are reordered by one permutation and the labels are reordered and
    renumbered to match. *)
Theorem contrastive_loss_permutation_invariant
    (n : nat) (sigma : list nat) (L : Tensor2) (labels : list Z) :
  Permutation sigma (seq 0 n) ->
  size0 L = n -> size1 L = n -> rectangular L ->
  length labels = n -> Forall (label_in_range n) labels ->
  contrastive_loss (permute_logits sigma L) (permute_labels sigma labels)
  = contrastive_loss L labels /\
  is_ok (contrastive_loss L labels).
Proof.
  intros Hperm Hrows Hcols Hrect Hlen Hlab. split.
  - unfold contrastive_loss.
    rewrite (cross_entropy_permute n sigma Hperm L Hrows Hcols Hrect labels Hlen Hlab).
    rewrite (transpose_permute_logits n sigma Hperm L Hrows Hcols).
    rewrite (cross_entropy_permute n sigma Hperm (transpose L)).
    + reflexivity.
    + rewrite size0_transpose. exact Hcols.
    + simpl. exact Hrows.
    + apply rectangular_transpose.
    + exact Hlen.
    + exact Hlab.
  - apply contrastive_loss_Ok; try congruence.
    rewrite Hcols. eapply Forall_impl; [| exact Hlab]. intros l Hl. right. exact Hl.
Qed.

Lemma contrastive_loss_permutation_invariant_witness :
  contrastive_loss (mkTensor2 [[4; 3]; [2; 1]] 2) [1%Z; 0%Z]
  = contrastive_loss (mkTensor2 [[1; 2]; [3; 4]] 2) [1%Z; 0%Z].
Proof.
  apply (contrastive_loss_permutation_invariant 2 [1%nat; 0%nat]
           (mkTensor2 [[1; 2]; [3; 4]] 2) [1%Z; 0%Z]).
  - apply perm_swap.
  - reflexivity.
  - reflexivity.
  - repeat constructor.
  - reflexivity.
  - repeat constructor; unfold label_in_range; simpl; lia.
Defined.

(** C6, as the specification states it, fails on the code: a batch whose one
    image embedding is the zero vector, on an instance with a prompt learner,
    goes through [forward] and a report is returned. *)
Lemma zero_norm_raises_counterexample : ~ zero_norm_raises.
Proof.
  intros claim.
  pose (self := Demo.with_learner (Demo.constant_embeddings 1 0)
                                  (Demo.constant_embeddings 1 1) (4 / 10) (4 / 10)).
  apply (raises_not_ok (forward Demo.fixed_autograd self tt tt [0%Z])).
  - apply claim. left. exists [0]. split; [left; reflexivity | apply norm_zero_vector].
  - apply (forward_Ok Demo.fixed_autograd self tt tt [0%Z] Demo.learner).
    + reflexivity.
    + reflexivity.
    + cbv; lia.
    + reflexivity.
    + constructor; [| constructor].
      split; [right |]; unfold label_in_range, label_indexable; simpl; lia.
    + reflexivity.
    + apply demo_autograd_available.
Qed.

(** C6, amended.  When some image or text embedding has Euclidean norm
    exactly zero, [forward] does not fail on that account: the normalization
    divides without a check, and a report is returned whenever the embedding
    dimensions match, the batch is square and non-empty, every label is in
    [0, M) and a prompt learner with available gradients is present. *)
Theorem zero_norm_not_guarded
    {Images TextTokens : Type}
    (autograd_grad : nat -> R -> list Param -> option (list (list R)))
    (self : CalShift Images TextTokens) (images : Images)
    (text_tokens : TextTokens) (labels : list Z) (pl : PromptLearner) :
  has_zero_norm (encode_image (clip_model self) images) \/
  has_zero_norm (encode_text (clip_model self) text_tokens) ->
  same_embedding_dim (clip_model self) images text_tokens ->
  num_images (clip_model self) images = num_prompts (clip_model self) text_tokens ->
  (0 < num_images (clip_model self) images)%nat ->
  labels_valid (clip_model self) images text_tokens labels ->
  prompt_learner self = Some pl ->
  autograd_available autograd_grad (learner_parameters pl)
                     (num_images (clip_model self) images) ->
  is_ok (forward autograd_grad self images text_tokens labels).
Proof.
  intros _ Hd Hsq Hpos [Hlen Hlab] Hpl Hav.
  apply (forward_Ok autograd_grad self images text_tokens labels pl);
    try assumption.
  apply valid_labels_accepted. exact Hlab.
Qed.

Lemma zero_norm_not_guarded_witness :
  is_ok (forward Demo.fixed_autograd
           (Demo.with_learner (Demo.constant_embeddings 1 1)
                              (Demo.constant_embeddings 1 0) (4 / 10) (4 / 10))
           tt tt [0%Z]).
Proof.
  apply (zero_norm_not_guarded Demo.fixed_autograd
           (Demo.with_learner (Demo.constant_embeddings 1 1)
                              (Demo.constant_embeddings 1 0) (4 / 10) (4 / 10))
           tt tt [0%Z] Demo.learner).
  - right. exists [0]. split; [left; reflexivity | apply norm_zero_vector].
  - reflexivity.
  - reflexivity.
  - cbv; lia.
  - split; [reflexivity |]. constructor; [| constructor].
    unfold label_in_range; simpl; lia.
  - reflexivity.
  - apply demo_autograd_available.
Defined.

(** C7, as the specification states it, fails on the code: the negative
    label -100 is the cross-entropy's [ignore_index], and with 100 text
    prompts it is also a valid index from the end, so a 100 x 100 batch
    carrying it goes through [forward] and a report is returned. *)
Lemma invalid_label_raises_counterexample : ~ invalid_label_raises.
Proof.
  intros claim.
  pose (self := Demo.with_learner (Demo.constant_embeddings 100 1)
                                  (Demo.constant_embeddings 100 1) (4 / 10) (4 / 10)).
  apply (raises_not_ok (forward Demo.fixed_autograd self tt tt Demo.ignored_labels)).
  - apply claim.
    + reflexivity.
    + unfold Demo.ignored_labels. constructor. left. unfold ignore_index. lia.
  - apply (forward_Ok Demo.fixed_autograd self tt tt Demo.ignored_labels Demo.learner).
    + reflexivity.
    + reflexivity.
    + change (num_images (clip_model self) tt) with 100%nat. lia.
    + reflexivity.
    + exact demo_ignored_labels_accepted.
    + reflexivity.
    + apply demo_autograd_available.
Qed.

(** C7, amended.  For every batch one of whose labels is negative or at
    least the number M of text prompts, [forward] raises instead of returning
    a loss, unless that label is -100, the value the cross-entropy ignores,
    and there are at least 100 prompts.  When the label is not -100, the
    embedding dimensions match and there is one label per image, the
    exception is the [IndexError] of the target check of the row-direction
    cross-entropy. *)
Theorem invalid_label_raises_unless_ignored
    {Images TextTokens : Type}
    (autograd_grad : nat -> R -> list Param -> option (list (list R)))
    (self : CalShift Images TextTokens) (images : Images)
    (text_tokens : TextTokens) (labels : list Z) :
  Exists (fun l => ((l < 0)%Z \/
                    (Z.of_nat (num_prompts (clip_model self) text_tokens) <= l)%Z) /\
                   (l <> (-100)%Z \/
                    (num_prompts (clip_model self) text_tokens < 100)%nat))
         labels ->
  raises (forward autograd_grad self images text_tokens labels) /\
  (same_embedding_dim (clip_model self) images text_tokens ->
   length labels = num_images (clip_model self) images ->
   Exists (fun l => ((l < 0)%Z \/
                     (Z.of_nat (num_prompts (clip_model self) text_tokens) <= l)%Z) /\
                    l <> (-100)%Z) labels ->
   forward autograd_grad self images text_tokens labels = Raise IndexError /\
   exists L,
     compute_logits self images text_tokens = Ok L /\
     cross_entropy L labels = Raise IndexError).
Proof.
  intros Hex. split.
  - destruct (forward autograd_grad self images text_tokens labels) as [r | e] eqn:E;
      [exfalso | exists e; reflexivity].
    destruct (forward_Ok_inv autograd_grad self images text_tokens labels r E)
      as [_ [_ [_ [_ [Hlab _]]]]].
    apply Exists_exists in Hex. destruct Hex as [l [Hin [Hout Hkeep]]].
    destruct (proj1 (Forall_forall _ _) Hlab l Hin) as [Hacc Hidx].
    unfold target_accepted, label_in_range, ignore_index in Hacc.
    unfold label_indexable in Hidx.
    destruct Hacc as [Hign | Hrange]; [| lia].
    destruct Hkeep as [Hne | Hfew]; [contradiction | lia].
  - intros Hd Hlen Hrej.
    destruct (compute_logits_Ok self images text_tokens Hd)
      as [L [HL [HN [HM _]]]].
    assert (Hrow : cross_entropy L labels = Raise IndexError).
    { apply cross_entropy_rejected; [congruence |].
      rewrite HM. eapply Exists_impl; [| exact Hrej].
      intros l [Hout Hne]. split; [exact Hne |].
      unfold label_in_range. lia. }
    split.
    + unfold forward. rewrite HL. simpl bind. unfold contrastive_loss.
      rewrite Hrow. reflexivity.
    + exists L. split; assumption.
Qed.

Lemma invalid_label_raises_unless_ignored_witness :
  forward Demo.fixed_autograd
    (Demo.with_learner (Demo.constant_embeddings 2 1)
                       (Demo.constant_embeddings 2 1) (4 / 10) (4 / 10))
    tt tt [(-100)%Z; 5%Z] = Raise IndexError.
Proof.
  apply (invalid_label_raises_unless_ignored Demo.fixed_autograd
           (Demo.with_learner (Demo.constant_embeddings 2 1)
                              (Demo.constant_embeddings 2 1) (4 / 10) (4 / 10))
           tt tt [(-100)%Z; 5%Z]).
  - apply Exists_cons_hd. split; [left; lia | right; cbv; lia].
  - reflexivity.
  - reflexivity.
  - apply Exists_cons_tl. apply Exists_cons_hd.
    split; [right; cbv; discriminate | discriminate].
Defined.

(** C8.  After construction every parameter of the CLIP model has gradient
    tracking disabled, whatever it was before; the instance refers to that
    frozen model, the parameter values are untouched, and constructing again
    on the frozen model leaves it as it is. *)
Theorem construction_freezes_backbone
    {Images TextTokens : Type}
    (clip_model0 : ClipModel Images TextTokens) (lambda_fim0 lambda_cmp0 : R) :
  let frozen := fst (__init__ clip_model0 lambda_fim0 lambda_cmp0) in
  let self := snd (__init__ clip_model0 lambda_fim0 lambda_cmp0) in
  clip_model self = frozen /\
  Forall (fun param => requires_grad param = false) (parameters frozen) /\
  map data (parameters frozen) = map data (parameters clip_model0) /\
  (forall lambda_fim1 lambda_cmp1,
     fst (__init__ frozen lambda_fim1 lambda_cmp1) = frozen).
Proof.
  simpl. split; [reflexivity |]. split; [| split].
  - apply Forall_forall. intros param Hin. apply in_map_iff in Hin.
    destruct Hin as [param0 [<- _]]. reflexivity.
  - rewrite map_map. apply map_ext. intros param. reflexivity.
  - intros _ _. unfold __init__. simpl. f_equal.
    rewrite map_map. apply map_ext. intros param. reflexivity.
Qed.

(** C9.  On a non-empty batch with one label in [0, M) per row, if the
    labeled class of every sample has the strictly highest softmax
    probability of its row, the confidence-misalignment penalty is 0. *)
Theorem dominant_labels_zero_cmp (L : Tensor2) (labels : list Z) :
  rectangular L ->
  (0 < size0 L)%nat ->
  length labels = size0 L ->
  Forall (label_in_range (size1 L)) labels ->
  (forall i, (i < size0 L)%nat -> Spec.label_dominates L labels i) ->
  compute_cmp L labels = Ok 0.
Proof.
  intros Hrect Hpos Hlen Hlab Hdom.
  destruct (compute_cmp_refines L labels Hrect ltac:(lia) Hlab Hpos)
    as [v [Hv [terms [HF ->]]]].
  rewrite Hv. f_equal.
  rewrite (contributions_zero L labels _ terms HF).
  - unfold Rdiv. apply Rmult_0_l.
  - apply Forall_forall. intros i Hi. apply in_seq in Hi.
    apply dominated_excess_zero.
    + apply (proj1 (Forall_forall _ _) Hrect). apply nth_In. unfold size0 in Hi. lia.
    + apply Hdom. lia.
Qed.

Lemma dominant_labels_zero_cmp_witness :
  compute_cmp (mkTensor2 [[1; 0]; [0; 1]] 2) [0%Z; 1%Z] = Ok 0.
Proof.
  apply (dominant_labels_zero_cmp (mkTensor2 [[1; 0]; [0; 1]] 2) [0%Z; 1%Z]).
  - repeat constructor.
  - cbv; lia.
  - reflexivity.
  - repeat constructor; unfold label_in_range; simpl; lia.
  - intros i Hi j Hj Hne. unfold Spec.true_prob, Spec.softmax_prob.
    unfold size0 in Hi. simpl in Hi, Hj.
    assert (Hexp : exp 0 < exp 1) by (apply exp_increasing; lra).
    assert (Hsum : forall r : list R, r <> [] -> 0 < / sum (map exp r)).
    { intros r Hr. apply Rinv_0_lt_compat. apply sum_exp_pos. exact Hr. }
    destruct i as [| [| i]]; [| | lia];
      (destruct j as [| [| j]]; [| | lia]);
      try (exfalso; apply Hne; reflexivity);
      simpl; unfold Rdiv; apply Rmult_lt_compat_r;
      try exact Hexp;
      first [ exact (Hsum [1; 0] ltac:(discriminate))
            | exact (Hsum [0; 1] ltac:(discriminate)) ].
Defined.

(** C10.  Whenever [compute_fisher_penalty] returns, its value is the mean
    over the samples of the squared Euclidean norm of the sample's
    concatenated gradient of the log-probability of its labeled class with
    respect to the prompt learner's parameters, and is therefore >= 0. *)
Theorem fisher_penalty_nonneg
    {Images TextTokens : Type}
    (autograd_grad : nat -> R -> list Param -> option (list (list R)))
    (self : CalShift Images TextTokens) (L : Tensor2) (labels : list Z) (v : R) :
  compute_fisher_penalty autograd_grad self L labels = Ok v ->
  0 <= v /\
  exists grads,
    Forall2 (sample_gradient autograd_grad self (softmax L) labels)
            (seq 0 (size0 L)) grads /\
    v = mean (map (fun g => norm g ^ 2) grads).
Proof.
  intros H.
  destruct (compute_fisher_penalty_spec autograd_grad self L labels v H)
    as [grads [HF [Hne Hv]]].
  split.
  - rewrite Hv. unfold mean.
    apply Rmult_le_pos.
    + apply sum_nonneg. apply Forall_forall. intros x Hx.
      apply in_map_iff in Hx. destruct Hx as [g [<- _]]. apply pow2_ge_0.
    + left. apply Rinv_0_lt_compat. apply lt_0_INR.
      rewrite length_map. destruct grads; [congruence | simpl; lia].
  - exists grads. split; assumption.
Qed.

Lemma fisher_penalty_nonneg_witness :
  exists v,
    compute_fisher_penalty Demo.fixed_autograd
      (Demo.with_learner (Demo.constant_embeddings 1 1)
                         (Demo.constant_embeddings 1 1) (4 / 10) (4 / 10))
      (mkTensor2 [[1; 0]; [0; 1]] 2) [0%Z; 1%Z] = Ok v /\
    0 <= v.
Proof.
  destruct (compute_fisher_penalty_Ok Demo.fixed_autograd
              (Demo.with_learner (Demo.constant_embeddings 1 1)
                                 (Demo.constant_embeddings 1 1) (4 / 10) (4 / 10))
              (mkTensor2 [[1; 0]; [0; 1]] 2) [0%Z; 1%Z] Demo.learner) as [v Hv].
  - reflexivity.
  - apply demo_autograd_available.
  - cbv; lia.
  - cbv; lia.
  - repeat constructor; unfold label_indexable; simpl; lia.
  - exists v. split; [exact Hv |].
    apply (fisher_penalty_nonneg Demo.fixed_autograd _ _ _ v Hv).
Defined.

(** * Further properties of the class *)

(** ** Outcomes of [compute_cmp] *)

Lemma wrap_index_raises (n : nat) (k : Z) :
  ~ label_indexable n k -> wrap_index n k = Raise IndexError.
Proof.
  intros H. destruct (wrap_index n k) as [j | e] eqn:E.
  - exfalso. apply H. exact (wrap_index_Ok_inv n k j E).
  - unfold wrap_index in E.
    destruct ((0 <=? k)%Z && (k <? Z.of_nat n)%Z); [discriminate E |].
    destruct ((- Z.of_nat n <=? k)%Z && (k <? 0)%Z); [discriminate E |].
    symmetry. exact E.
Qed.

Lemma label_indexable_dec (n : nat) (k : Z) :
  {label_indexable n k} + {~ label_indexable n k}.
Proof.
  unfold label_indexable.
  destruct (Z_le_dec (- Z.of_nat n) k) as [H0 | H0];
    [destruct (Z_lt_dec k (Z.of_nat n)) as [H1 | H1] |].
  - left. split; assumption.
  - right. lia.
  - right. lia.
Qed.

(** An entry read from the probability matrix is never negative. *)
Lemma index2_softmax_nonneg (L : Tensor2) (i : nat) (l : Z) (p : R) :
  index2 (softmax L) i l = Ok p -> 0 <= p.
Proof.
  unfold index2. destruct (nth_error (rows (softmax L)) i) as [r |] eqn:Er;
    [| discriminate].
  intros H. bind_inv H. injection H as <-.
  unfold softmax in Er. simpl in Er. apply nth_error_In in Er.
  apply in_map_iff in Er. destruct Er as [r0 [<- _]].
  destruct (Nat.lt_ge_cases a (length r0)) as [Hlt | Hge].
  - rewrite (nth_softmax_row r0 a Hlt). left. apply softmax_prob_pos.
    destruct r0; [simpl in Hlt; lia | discriminate].
  - rewrite nth_overflow by (rewrite length_softmax_row; exact Hge). lra.
Qed.

(** Every entry the mask selects is strictly above [true_prob]. *)
Lemma masked_above (probs_i : list R) (true_prob : R) (l : Z) (start M : nat) :
  Forall (fun x => true_prob < x)
    (map fst (filter snd
      (combine probs_i
         (map (fun pj => Rgtb (fst pj) true_prob && negb (Z.of_nat (snd pj) =? l)%Z)
              (combine probs_i (seq start M)))))).
Proof.
  revert start M. induction probs_i as [| x probs_i IH]; intros start M;
    [constructor |].
  destruct M as [| M]; [constructor |].
  cbn [seq combine map fst snd filter].
  destruct (Rgtb x true_prob && negb (Z.of_nat start =? l)%Z) eqn:E;
    cbn [snd map fst].
  - constructor; [| apply IH].
    apply andb_prop in E. destruct E as [E _]. unfold Rgtb in E.
    destruct (Rlt_dec true_prob x) as [Hlt | _]; [exact Hlt | discriminate E].
  - apply IH.
Qed.

Lemma sum_above (p : R) (v : list R) :
  0 <= p -> Forall (fun x => p < x) v -> 0 < sum v -> p < sum v.
Proof.
  intros Hp Hv Hpos. destruct Hv as [| x v Hx Hv]; [simpl in Hpos; lra |].
  assert (0 <= sum v).
  { apply sum_nonneg. eapply Forall_impl; [| exact Hv]. simpl. intros y Hy. lra. }
  unfold sum in *. simpl. lra.
Qed.

(** When the mask selects anything, [true_prob / excess_prob] is a proper
    fraction. *)
Lemma cmp_ratio_below_one (probs_i : list R) (M : nat) (true_prob : R) (l : Z) :
  0 <= true_prob ->
  0 < excess probs_i M true_prob l ->
  0 <= true_prob / excess probs_i M true_prob l < 1.
Proof.
  intros Hp Hex.
  assert (Hlt : true_prob < excess probs_i M true_prob l).
  { unfold excess in *. apply sum_above; [exact Hp | apply masked_above | exact Hex]. }
  split.
  - apply Rmult_le_pos; [exact Hp | left; apply Rinv_0_lt_compat; exact Hex].
  - apply (Rmult_lt_reg_r (excess probs_i M true_prob l)); [exact Hex |].
    unfold Rdiv. rewrite Rmult_assoc, Rinv_l by lra. lra.
Qed.

Lemma cmp_loop_outcome (L : Tensor2) (labels : list Z) (range : list nat) (cmp_loss : R) :
  Forall (fun i => (i < size0 L)%nat) range ->
  match cmp_loop (softmax L) labels range cmp_loss with
  | Ok res =>
      Forall (sample_indexable L labels) range /\
      exists terms,
        length terms = length range /\
        Forall (fun t => 0 <= t < 1) terms /\
        res = cmp_loss + sum terms
  | Raise IndexError => Exists (sample_unindexable L labels) range
  | Raise _ => False
  end.
Proof.
  intros Hrange. revert cmp_loss.
  induction Hrange as [| i range Hi _ IH]; intros cmp_loss.
  - simpl. split; [constructor |]. exists []. repeat split; [constructor | simpl; lra].
  - cbn [cmp_loop]. unfold getitem.
    destruct (nth_error labels i) as [l |] eqn:El; simpl bind.
    2:{ apply Exists_cons_hd. unfold sample_unindexable. rewrite El. exact I. }
    destruct (label_indexable_dec (size1 L) l) as [Hidx | Hnidx].
    + destruct (index2_Ok (softmax L) i l) as [p Hp];
        [rewrite size0_softmax; exact Hi | exact Hidx |].
      rewrite Hp. simpl bind.
      pose proof (index2_softmax_nonneg L i l p Hp) as Hp0.
      match goal with
      | |- context [Rlt_dec 0 ?e] => set (ex := e)
      end.
      assert (Hratio : 0 < ex -> 0 <= p / ex < 1).
      { intros Hex. apply cmp_ratio_below_one; assumption. }
      clearbody ex.
      set (next := if Rlt_dec 0 ex then cmp_loss + p / ex else cmp_loss).
      specialize (IH next).
      destruct (cmp_loop (softmax L) labels range next) as [res | e].
      * destruct IH as [Hall [terms [Hlen [Hterms Hres]]]]. split.
        { constructor; [exists l; split; assumption | exact Hall]. }
        exists ((if Rlt_dec 0 ex then p / ex else 0) :: terms).
        split; [simpl; rewrite Hlen; reflexivity |]. split.
        { constructor; [| exact Hterms].
          destruct (Rlt_dec 0 ex) as [Hex | _]; [| lra].
          exact (Hratio Hex). }
        rewrite Hres. unfold next. simpl. unfold sum.
        destruct (Rlt_dec 0 ex); lra.
      * destruct e; try exact IH. apply Exists_cons_tl. exact IH.
    + unfold index2.
      destruct (nth_error (rows (softmax L)) i) as [r |] eqn:Er.
      * change (size1 (softmax L)) with (size1 L).
        rewrite (wrap_index_raises _ _ Hnidx). simpl.
        apply Exists_cons_hd. unfold sample_unindexable. rewrite El. exact Hnidx.
      * apply nth_error_None in Er. fold (size0 (softmax L)) in Er.
        rewrite size0_softmax in Er. lia.
Qed.

Lemma seq_lt (n : nat) : Forall (fun i => (i < n)%nat) (seq 0 n).
Proof. apply Forall_forall. intros i Hi. apply in_seq in Hi. lia. Qed.

Lemma sum_below (v : list R) :
  Forall (fun t => 0 <= t < 1) v -> 0 <= sum v /\ (v <> [] -> sum v < INR (length v)).
Proof.
  induction 1 as [| t v Ht _ [IH0 IH1]].
  - split; [simpl; lra | congruence].
  - split.
    + unfold sum in *. simpl. lra.
    + intros _. cbn [length]. rewrite S_INR. unfold sum in *. cbn [fold_right].
      destruct v as [| t' v].
      * simpl. lra.
      * specialize (IH1 ltac:(discriminate)). lra.
Qed.

(** A returned penalty is a mean of proper fractions. *)
Lemma compute_cmp_Ok_range (L : Tensor2) (labels : list Z) (v : R) :
  compute_cmp L labels = Ok v -> 0 <= v < 1.
Proof.
  unfold compute_cmp. intros H.
  pose proof (cmp_loop_outcome L labels (seq 0 (size0 L)) 0 (seq_lt _)) as Hloop.
  destruct (cmp_loop (softmax L) labels (seq 0 (size0 L)) 0) as [res | e];
    simpl bind in H; [| discriminate H].
  destruct Hloop as [_ [terms [Hlen [Hterms Hres]]]].
  destruct (Nat.eqb (size0 L) 0) eqn:E; [discriminate H |].
  apply Nat.eqb_neq in E. injection H as <-. rewrite length_seq in Hlen.
  destruct (sum_below terms Hterms) as [H0 H1].
  assert (Hne : terms <> []) by (destruct terms; [simpl in Hlen; lia | discriminate]).
  specialize (H1 Hne). rewrite Hlen in H1.
  assert (HN : 0 < INR (size0 L)) by (apply lt_0_INR; lia).
  rewrite Hres. replace (0 + sum terms) with (sum terms) by lra. split.
  - apply Rmult_le_pos; [exact H0 | left; apply Rinv_0_lt_compat; exact HN].
  - apply (Rmult_lt_reg_r (INR (size0 L))); [exact HN |].
    unfold Rdiv. rewrite Rmult_assoc, Rinv_l by lra. lra.
Qed.

(** X1.  The outcome of [compute_cmp] on any logits matrix and label vector:
    it returns exactly when the batch is non-empty and every sample has a
    label that the indexing accepts (negative labels down to -M included),
    and the value then lies in [0, 1); on an empty batch it raises
    [ZeroDivisionError]; otherwise it raises [IndexError], some sample having
    no label or one outside [-M, M).  No other exception occurs. *)
Theorem compute_cmp_outcome (L : Tensor2) (labels : list Z) :
  match compute_cmp L labels with
  | Ok v =>
      (0 < size0 L)%nat /\
      (forall i, (i < size0 L)%nat -> sample_indexable L labels i) /\
      0 <= v < 1
  | Raise ZeroDivisionError => size0 L = 0%nat
  | Raise IndexError =>
      exists i, (i < size0 L)%nat /\ sample_unindexable L labels i
  | Raise _ => False
  end.
Proof.
  pose proof (compute_cmp_Ok_range L labels) as Hrange.
  unfold compute_cmp in *.
  pose proof (cmp_loop_outcome L labels (seq 0 (size0 L)) 0 (seq_lt _)) as H.
  destruct (cmp_loop (softmax L) labels (seq 0 (size0 L)) 0) as [res | e];
    simpl bind in *.
  - destruct H as [Hall _].
    destruct (Nat.eqb (size0 L) 0) eqn:E.
    + apply Nat.eqb_eq in E. exact E.
    + apply Nat.eqb_neq in E. split; [lia |]. split.
      * intros i Hi. apply (proj1 (Forall_forall _ _) Hall). apply in_seq. lia.
      * apply Hrange. reflexivity.
  - destruct e; try contradiction.
    apply Exists_exists in H. destruct H as [i [Hi Hbad]].
    apply in_seq in Hi. exists i. split; [lia | exact Hbad].
Qed.

(** ** Negative labels *)

Lemma wrap_index_normalize (n : nat) (k : Z) :
  wrap_index n (normalize_label n k) = wrap_index n k.
Proof.
  unfold normalize_label.
  destruct ((- Z.of_nat n <=? k)%Z && (k <? 0)%Z) eqn:E; [| reflexivity].
  pose proof E as E'. apply andb_prop in E'. destruct E' as [E0 E1].
  apply Z.leb_le in E0. apply Z.ltb_lt in E1.
  rewrite (wrap_index_in_range n (k + Z.of_nat n))
    by (unfold label_in_range; lia).
  unfold wrap_index.
  rewrite (range_test_false n k) by (unfold label_in_range; lia).
  rewrite E. reflexivity.
Qed.

Lemma in_combine_seq (row : list R) (start M : nat) (x : R) (k : nat) :
  In (x, k) (combine row (seq start M)) ->
  (start <= k)%nat /\ nth (k - start) row 0 = x.
Proof.
  revert start M. induction row as [| y row IH]; intros start M Hin;
    [destruct Hin |].
  destruct M as [| M]; [destruct Hin |].
  cbn [seq combine] in Hin. destruct Hin as [Heq | Hin].
  - injection Heq as -> ->. split; [lia |]. rewrite Nat.sub_diag. reflexivity.
  - destruct (IH (S start) M Hin) as [Hle Hnth]. split; [lia |].
    replace (k - start)%nat with (S (k - S start)) by lia. exact Hnth.
Qed.

(** The mask is the same for a negative label and for the class it denotes:
    the labeled class is never strictly above itself. *)
Lemma excess_normalize (row : list R) (M : nat) (l : Z) (j : nat) :
  wrap_index M l = Ok j ->
  excess row M (nth j row 0) (normalize_label M l) = excess row M (nth j row 0) l.
Proof.
  intros Hj. unfold excess. f_equal. f_equal. f_equal. f_equal.
  apply map_ext_in. intros [x k] Hin. cbn [fst snd].
  unfold normalize_label.
  destruct ((- Z.of_nat M <=? l)%Z && (l <? 0)%Z) eqn:E; [| reflexivity].
  pose proof E as E'. apply andb_prop in E'. destruct E' as [_ E1].
  apply Z.ltb_lt in E1.
  pose proof (wrap_index_Ok_inv M l j Hj) as Hidx. unfold label_indexable in Hidx.
  assert (Hjl : j = Z.to_nat (l + Z.of_nat M)).
  { unfold wrap_index in Hj.
    rewrite (range_test_false M l) in Hj by (unfold label_in_range; lia).
    rewrite E in Hj. injection Hj as <-. reflexivity. }
  assert (El : (Z.of_nat k =? l)%Z = false) by (apply Z.eqb_neq; lia).
  rewrite El. cbn [negb]. rewrite andb_true_r.
  destruct (Z.of_nat k =? l + Z.of_nat M)%Z eqn:Ek; cbn [negb].
  - apply Z.eqb_eq in Ek. rewrite andb_false_r.
    destruct (in_combine_seq row 0 M x k Hin) as [_ Hx].
    rewrite Nat.sub_0_r in Hx.
    assert (k = j) by lia. subst k. rewrite <- Hx. unfold Rgtb.
    destruct (Rlt_dec (nth j row 0) (nth j row 0)) as [Hlt | _]; [lra | reflexivity].
  - rewrite andb_true_r. reflexivity.
Qed.

Lemma cmp_loop_normalize (probs : Tensor2) (labels : list Z) (range : list nat)
    (cmp_loss : R) :
  cmp_loop probs (map (normalize_label (size1 probs)) labels) range cmp_loss
  = cmp_loop probs labels range cmp_loss.
Proof.
  revert cmp_loss. induction range as [| i range IH]; intros cmp_loss;
    [reflexivity |].
  cbn [cmp_loop]. unfold getitem. rewrite nth_error_map.
  destruct (nth_error labels i) as [l |]; [| reflexivity]. simpl bind.
  unfold index2. destruct (nth_error (rows probs) i) as [r |] eqn:Er;
    [| reflexivity].
  rewrite wrap_index_normalize.
  destruct (wrap_index (size1 probs) l) as [j | e] eqn:Ej; [| reflexivity].
  simpl bind. rewrite (nth_error_nth _ _ [] Er).
  rewrite (excess_normalize r (size1 probs) l j Ej). apply IH.
Qed.

(** X2.  [compute_cmp] treats a negative label as the class it denotes
    counting from the end: replacing every label [l] with [-M <= l < 0] by
    [l + M] changes neither the value returned nor the exception raised. *)
Theorem compute_cmp_negative_labels (L : Tensor2) (labels : list Z) :
  compute_cmp L (map (normalize_label (size1 L)) labels) = compute_cmp L labels.
Proof.
  unfold compute_cmp.
  change (size1 L) with (size1 (softmax L)).
  rewrite cmp_loop_normalize. reflexivity.
Qed.

(** ** When the penalty vanishes *)

Lemma sum_zero_terms (v : list R) :
  Forall (fun t => 0 <= t) v -> sum v = 0 -> Forall (fun t => t = 0) v.
Proof.
  induction 1 as [| t v Ht Hv IH]; intros Hsum; [constructor |].
  pose proof (sum_nonneg v Hv) as Hs. unfold sum in *. simpl in Hsum.
  constructor; [lra | apply IH; lra].
Qed.

Lemma softmax_prob_le (r : list R) (j l : nat) :
  r <> [] ->
  (Spec.softmax_prob r j <= Spec.softmax_prob r l <-> nth j r 0 <= nth l r 0).
Proof.
  intros Hr. unfold Spec.softmax_prob.
  pose proof (sum_exp_pos r Hr) as Hpos.
  assert (Hinv : 0 < / sum (map exp r)) by (apply Rinv_0_lt_compat; exact Hpos).
  unfold Rdiv. split.
  - intros H. apply Rmult_le_reg_r in H; [| exact Hinv].
    destruct H as [H | H].
    + left. apply exp_lt_inv. exact H.
    + right. apply exp_inv. exact H.
  - intros H. apply Rmult_le_compat_r; [lra |].
    destruct H as [H | H].
    + left. apply exp_increasing. exact H.
    + rewrite H. lra.
Qed.

(** No class is exceeding exactly when the label is an argmax of the row. *)
Lemma exceeding_none_iff (r : list R) (l : nat) :
  r <> [] ->
  (sum (map (Spec.softmax_prob r) (Spec.exceeding r l)) = 0 <->
   forall j, (j < length r)%nat -> nth j r 0 <= nth l r 0).
Proof.
  intros Hr. split.
  - intros Hsum j Hj.
    apply (softmax_prob_le r j l Hr).
    destruct (Rle_lt_dec (Spec.softmax_prob r j) (Spec.softmax_prob r l))
      as [Hle | Hgt]; [exact Hle | exfalso].
    assert (Hin : In j (Spec.exceeding r l)).
    { unfold Spec.exceeding. apply filter_In. split; [apply in_seq; lia |].
      apply andb_true_intro. split.
      - apply negb_true_iff. apply Nat.eqb_neq. intros ->. lra.
      - unfold Rgtb. destruct (Rlt_dec _ _); [reflexivity | contradiction]. }
    assert (Hall : Forall (fun t => t = 0)
                     (map (Spec.softmax_prob r) (Spec.exceeding r l))).
    { apply sum_zero_terms; [| exact Hsum].
      apply Forall_forall. intros t Ht. apply in_map_iff in Ht.
      destruct Ht as [k [<- _]]. left. apply softmax_prob_pos. exact Hr. }
    pose proof (proj1 (Forall_forall _ _) Hall (Spec.softmax_prob r j)
                  (in_map _ _ _ Hin)) as Hz.
    pose proof (softmax_prob_pos r j Hr). lra.
  - intros Hmax. unfold Spec.exceeding. rewrite filter_none; [reflexivity |].
    intros j Hj. apply in_seq in Hj.
    destruct (Nat.eqb j l); [reflexivity |]. simpl. unfold Rgtb.
    pose proof (proj2 (softmax_prob_le r j l Hr) (Hmax j ltac:(lia))) as Hle.
    destruct (Rlt_dec _ _) as [Hlt | _]; [lra | reflexivity].
Qed.

(** X3.  On a non-empty batch with one label in [0, M) per row, if every
    label is an argmax of its logits row, ties allowed, the
    confidence-misalignment penalty is 0: a class whose logit only equals the
    label's is not counted among the exceeding ones. *)
Theorem argmax_labels_zero_cmp (L : Tensor2) (labels : list Z) :
  rectangular L ->
  (0 < size0 L)%nat ->
  length labels = size0 L ->
  Forall (label_in_range (size1 L)) labels ->
  (forall i, (i < size0 L)%nat -> label_is_argmax L labels i) ->
  compute_cmp L labels = Ok 0.
Proof.
  intros Hrect Hpos Hlen Hlab Harg.
  destruct (compute_cmp_refines L labels Hrect ltac:(lia) Hlab Hpos)
    as [v [Hv [terms [HF ->]]]].
  rewrite Hv. f_equal.
  rewrite (contributions_zero L labels _ terms HF).
  - unfold Rdiv. apply Rmult_0_l.
  - apply Forall_forall. intros i Hi. apply in_seq in Hi.
    assert (Hi' : (i < size0 L)%nat) by lia.
    assert (Hrow : length (nth i (rows L) []) = size1 L).
    { apply (proj1 (Forall_forall _ _) Hrect). apply nth_In. exact Hi'. }
    assert (HM : (0 < size1 L)%nat).
    { assert (Hin : In (nth i labels 0%Z) labels) by (apply nth_In; lia).
      pose proof (proj1 (Forall_forall _ _) Hlab _ Hin) as Hr.
      unfold label_in_range in Hr. lia. }
    assert (Hne : nth i (rows L) [] <> []).
    { intros E. rewrite E in Hrow. simpl in Hrow. lia. }
    unfold Spec.excess_prob.
    apply (exceeding_none_iff _ _ Hne). rewrite Hrow. exact (Harg i Hi').
Qed.

Lemma argmax_labels_zero_cmp_witness :
  compute_cmp (mkTensor2 [[1; 1]; [0; 1]] 2) [0%Z; 1%Z] = Ok 0.
Proof.
  apply (argmax_labels_zero_cmp (mkTensor2 [[1; 1]; [0; 1]] 2) [0%Z; 1%Z]).
  - repeat constructor.
  - cbv; lia.
  - reflexivity.
  - repeat constructor; unfold label_in_range; simpl; lia.
  - intros i Hi j Hj. unfold size0 in Hi. simpl in Hi, Hj.
    destruct i as [| [| i]]; [| | lia];
      (destruct j as [| [| j]]; [| | lia]); simpl; lra.
Defined.

(** ** Outcomes of [compute_fisher_penalty] *)

(** X4.  On an instance without a prompt learner [compute_fisher_penalty]
    never returns, and its exception is decided by the batch size and the
    first sample alone: [RuntimeError] (stacking an empty list) on an empty
    batch, [IndexError] when the first sample has no label or one outside
    [-M, M), and otherwise the [AttributeError] of
    [self.prompt_learner.parameters()]. *)
Theorem compute_fisher_penalty_without_learner
    {Images TextTokens : Type}
    (autograd_grad : nat -> R -> list Param -> option (list (list R)))
    (self : CalShift Images TextTokens) (L : Tensor2) (labels : list Z) :
  prompt_learner self = None ->
  match compute_fisher_penalty autograd_grad self L labels with
  | Ok _ => False
  | Raise RuntimeError => size0 L = 0%nat
  | Raise IndexError => (0 < size0 L)%nat /\ sample_unindexable L labels 0
  | Raise AttributeError => (0 < size0 L)%nat /\ sample_indexable L labels 0
  | Raise _ => False
  end.
Proof.
  intros Hnone. unfold compute_fisher_penalty.
  destruct (size0 L) as [| n] eqn:En.
  - reflexivity.
  - cbn [seq fisher_loop]. unfold getitem, sample_unindexable, sample_indexable.
    destruct (nth_error labels 0) as [l |] eqn:El; simpl bind;
      [| split; [lia | exact I]].
    destruct (label_indexable_dec (size1 L) l) as [Hidx | Hnidx].
    + destruct (index2_Ok (softmax L) 0 l) as [p Hp];
        [rewrite size0_softmax; lia | exact Hidx |].
      rewrite Hp. simpl bind. unfold prompt_learner_parameters. rewrite Hnone.
      simpl. split; [lia |]. exists l. split; [reflexivity | exact Hidx].
    + unfold index2.
      destruct (nth_error (rows (softmax L)) 0) as [r |] eqn:Er.
      * change (size1 (softmax L)) with (size1 L).
        rewrite (wrap_index_raises _ _ Hnidx). simpl. split; [lia | exact Hnidx].
      * apply nth_error_None in Er. fold (size0 (softmax L)) in Er.
        rewrite size0_softmax in Er. lia.
Qed.

Lemma compute_fisher_penalty_without_learner_witness :
  match compute_fisher_penalty Demo.fixed_autograd
          (Demo.as_constructed (Demo.constant_embeddings 1 1)
                               (Demo.constant_embeddings 1 1) (4 / 10) (4 / 10))
          diagonal_logits [5%Z; 1%Z] with
  | Ok _ => False
  | Raise RuntimeError => size0 diagonal_logits = 0%nat
  | Raise IndexError =>
      (0 < size0 diagonal_logits)%nat /\
      sample_unindexable diagonal_logits [5%Z; 1%Z] 0
  | Raise AttributeError =>
      (0 < size0 diagonal_logits)%nat /\
      sample_indexable diagonal_logits [5%Z; 1%Z] 0
  | Raise _ => False
  end.
Proof.
  apply (compute_fisher_penalty_without_learner Demo.fixed_autograd
           (Demo.as_constructed (Demo.constant_embeddings 1 1)
                                (Demo.constant_embeddings 1 1)
                                (4 / 10) (4 / 10))
           diagonal_logits [5%Z; 1%Z]).
  reflexivity.
Defined.





(** ** When [forward] returns *)

(** X6.  Provided the autograd engine answers for the prompt learner's
    parameters, [forward] returns a report exactly when the embedding
    dimensions match, the batch is square and non-empty, there is one label
    per image, every label is accepted both by the cross-entropy (in [0, M),
    or -100) and by the indexing (in [-M, M)), and a prompt learner is
    present; in every other case it raises. *)
Theorem forward_returns_iff
    {Images TextTokens : Type}
    (autograd_grad : nat -> R -> list Param -> option (list (list R)))
    (self : CalShift Images TextTokens) (images : Images)
    (text_tokens : TextTokens) (labels : list Z) :
  (forall pl, prompt_learner self = Some pl ->
     autograd_available autograd_grad (learner_parameters pl)
                        (num_images (clip_model self) images)) ->
  (is_ok (forward autograd_grad self images text_tokens labels) <->
   same_embedding_dim (clip_model self) images text_tokens /\
   num_images (clip_model self) images = num_prompts (clip_model self) text_tokens /\
   (0 < num_images (clip_model self) images)%nat /\
   length labels = num_images (clip_model self) images /\
   Forall (fun l => target_accepted (num_prompts (clip_model self) text_tokens) l /\
                    label_indexable (num_prompts (clip_model self) text_tokens) l)
          labels /\
   prompt_learner self <> None).
Proof.
  intros Hav. split.
  - intros [r Hr]. exact (forward_Ok_inv autograd_grad self images text_tokens labels r Hr).
  - intros [Hd [Hsq [Hpos [Hlen [Hlab Hpl]]]]].
    destruct (prompt_learner self) as [pl |] eqn:Epl; [| congruence].
    apply (forward_Ok autograd_grad self images text_tokens labels pl);
      try assumption.
    apply Hav. reflexivity.
Qed.

Lemma forward_returns_iff_witness :
  is_ok (forward Demo.fixed_autograd
           (Demo.with_learner (Demo.constant_embeddings 2 1)
                              (Demo.constant_embeddings 2 1) (4 / 10) (4 / 10))
           tt tt [0%Z; (-1)%Z]) <->
  same_embedding_dim (Demo.fixed_clip (Demo.constant_embeddings 2 1)
                                      (Demo.constant_embeddings 2 1)) tt tt /\
  2%nat = 2%nat /\ (0 < 2)%nat /\ length [0%Z; (-1)%Z] = 2%nat /\
  Forall (fun l => target_accepted 2 l /\ label_indexable 2 l) [0%Z; (-1)%Z] /\
  Some Demo.learner <> None.
Proof.
  apply (forward_returns_iff Demo.fixed_autograd
           (Demo.with_learner (Demo.constant_embeddings 2 1)
                              (Demo.constant_embeddings 2 1) (4 / 10) (4 / 10))
           tt tt [0%Z; (-1)%Z]).
  intros pl _. apply demo_autograd_available.
Defined.

(** ** Bounds on the report *)








(** ** The logits are scaled cosine similarities *)








(** ** The loss is symmetric in images and texts *)

Lemma transpose_involutive (L : Tensor2) :
  rectangular L -> transpose (transpose L) = L.
Proof.
  destruct L as [rws M]. unfold rectangular. cbn [rows size1]. intros Hrect.
  unfold transpose at 1. f_equal.
  - cbn [size1 rows transpose]. unfold size0. cbn [rows].
    etransitivity; [| apply (map_nth_seq rws [])]. apply map_ext_in.
    intros j Hj. apply in_seq in Hj.
    rewrite map_map.
    assert (Hrow : length (nth j rws []) = M).
    { apply (proj1 (Forall_forall _ _) Hrect). apply nth_In. lia. }
    etransitivity; [| apply (map_nth_seq (nth j rws []) 0)]. rewrite Hrow.
    apply map_ext_in. intros k _.
    apply (nth_map_lt (fun r => nth k r 0) rws j [] 0). lia.
  - unfold size0, transpose. cbn [rows size1]. rewrite length_map.
    apply length_seq.
Qed.

Lemma nll_sum_raises_only (C : nat) (input : list (list R)) (target : list Z) (e : exn) :
  nll_sum C input target = Raise e -> e = IndexError.
Proof.
  revert target. induction input as [| r input IH]; intros [| t target] H;
    simpl in H; try discriminate H.
  destruct (t =? ignore_index)%Z.
  - exact (IH target H).
  - destruct ((0 <=? t)%Z && (t <? Z.of_nat C)%Z).
    + destruct (nll_sum C input target) as [acc | e'] eqn:E; simpl in H.
      * discriminate H.
      * injection H as <-. exact (IH target E).
    + injection H as <-. reflexivity.
Qed.

(** The exception of a cross-entropy tells which check failed. *)
Lemma cross_entropy_raise_cases (input : Tensor2) (target : list Z) (e : exn) :
  cross_entropy input target = Raise e ->
  (size0 input <> length target /\ e = ValueError) \/
  (size0 input = length target /\ e = IndexError).
Proof.
  unfold cross_entropy. destruct (Nat.eqb _ _) eqn:E.
  - apply Nat.eqb_eq in E. intros H. right. split; [exact E |].
    destruct (nll_sum _ _ _) as [acc | e'] eqn:En; simpl in H; [discriminate H |].
    injection H as <-. exact (nll_sum_raises_only _ _ _ _ En).
  - apply Nat.eqb_neq in E. intros H. injection H as <-. left. split; [exact E | reflexivity].
Qed.

(** X9.  On a square logits matrix the contrastive loss is symmetric in the
    two directions: transposing the logits, that is swapping the roles of
    images and texts, changes neither the value nor the exception. *)
Theorem contrastive_loss_transpose (L : Tensor2) (labels : list Z) :
  rectangular L ->
  size0 L = size1 L ->
  contrastive_loss (transpose L) labels = contrastive_loss L labels.
Proof.
  intros Hrect Hsq. unfold contrastive_loss.
  rewrite (transpose_involutive L Hrect).
  destruct (cross_entropy L labels) as [a | ea] eqn:Ea;
    destruct (cross_entropy (transpose L) labels) as [b | eb] eqn:Eb;
    simpl bind; try reflexivity.
  - f_equal. lra.
  - apply cross_entropy_raise_cases in Ea. apply cross_entropy_raise_cases in Eb.
    rewrite size0_transpose in Eb.
    destruct Ea as [[Ha ->] | [Ha ->]]; destruct Eb as [[Hb ->] | [Hb ->]];
      try reflexivity; exfalso; congruence.
Qed.

Lemma contrastive_loss_transpose_witness :
  contrastive_loss (transpose (mkTensor2 [[1; 2]; [3; 4]] 2)) [1%Z; 0%Z]
  = contrastive_loss (mkTensor2 [[1; 2]; [3; 4]] 2) [1%Z; 0%Z].
Proof.
  apply (contrastive_loss_transpose (mkTensor2 [[1; 2]; [3; 4]] 2) [1%Z; 0%Z]).
  - repeat constructor.
  - reflexivity.
Defined.

(** ** The example under [__main__] *)

(** X10.  The example call cannot print its losses: with the four images and
    two prompts of the example and matching embedding dimensions, [forward]
    raises the batch-size [ValueError] of the column-direction cross-entropy,
    whatever the CLIP model computes. *)
Theorem example_usage_raises
    {Images TextTokens : Type}
    (autograd_grad : nat -> R -> list Param -> option (list (list R)))
    (clip_model0 : ClipModel Images TextTokens) (images : Images)
    (text_tokens : TextTokens) :
  num_images clip_model0 images = 4%nat ->
  num_prompts clip_model0 text_tokens = 2%nat ->
  same_embedding_dim clip_model0 images text_tokens ->
  example_usage autograd_grad clip_model0 images text_tokens = Raise ValueError.
Proof.
  intros HN HM Hd. unfold example_usage.
  set (cal_shift := snd (__init__ clip_model0 default_lambda_fim default_lambda_cmp)).
  destruct (compute_logits_Ok cal_shift images text_tokens Hd)
    as [L [HL [HN' [HM' _]]]].
  change (num_images (clip_model cal_shift) images)
    with (num_images clip_model0 images) in HN'.
  change (num_prompts (clip_model cal_shift) text_tokens)
    with (num_prompts clip_model0 text_tokens) in HM'.
  unfold forward. rewrite HL. simpl bind. unfold contrastive_loss.
  destruct (cross_entropy_Ok L example_labels) as [by_row ->].
  - rewrite HN', HN. reflexivity.
  - rewrite HM', HM. unfold example_labels.
    repeat (apply Forall_cons; [right; unfold label_in_range; simpl; lia |]).
    apply Forall_nil.
  - simpl bind.
    rewrite (cross_entropy_batch_mismatch (transpose L) example_labels).
    + reflexivity.
    + rewrite size0_transpose, HM', HM. unfold example_labels. simpl. lia.
Qed.

Lemma example_usage_raises_witness :
  example_usage Demo.fixed_autograd
    (Demo.fixed_clip (Demo.constant_embeddings 4 1) (Demo.constant_embeddings 2 1))
    tt tt = Raise ValueError.
Proof.
  apply (example_usage_raises Demo.fixed_autograd
           (Demo.fixed_clip (Demo.constant_embeddings 4 1)
                            (Demo.constant_embeddings 2 1)) tt tt);
    reflexivity.
Defined.

(** ** The penalty does not depend on the order of the samples *)

Lemma contributions_closed (L : Tensor2) (labels : list Z) (range : list nat)
    (terms : list R) :
  Forall2 (fun i term =>
             Spec.contributes (Spec.true_prob L labels i)
                              (Spec.excess_prob L labels i) term) range terms ->
  terms = map (cmp_term L labels) range.
Proof.
  induction 1 as [| i t range terms [Hpos Hzero] _ IH]; [reflexivity |].
  simpl. f_equal; [| exact IH]. unfold cmp_term.
  destruct (Rlt_dec 0 (Spec.excess_prob L labels i)) as [Hlt | Hnlt].
  - exact (Hpos Hlt).
  - apply Hzero. pose proof (excess_prob_nonneg L labels i). lra.
Qed.

Lemma compute_cmp_closed_form (L : Tensor2) (labels : list Z) :
  rectangular L ->
  (0 < size0 L)%nat ->
  length labels = size0 L ->
  Forall (label_in_range (size1 L)) labels ->
  compute_cmp L labels
  = Ok (sum (map (cmp_term L labels) (seq 0 (size0 L))) / INR (size0 L)).
Proof.
  intros Hrect Hpos Hlen Hlab.
  destruct (compute_cmp_refines L labels Hrect ltac:(lia) Hlab Hpos)
    as [v [Hv [terms [HF ->]]]].
  rewrite Hv. rewrite (contributions_closed L labels _ terms HF). reflexivity.
Qed.

(** X11.  On a non-empty batch with one label in [0, M) per row, the
    confidence-misalignment penalty does not depend on the order of the
    samples: reordering the rows of the logits and the labels alike leaves
    it unchanged. *)
Theorem compute_cmp_sample_order
    (sigma : list nat) (L : Tensor2) (labels : list Z) :
  Permutation sigma (seq 0 (size0 L)) ->
  rectangular L ->
  (0 < size0 L)%nat ->
  length labels = size0 L ->
  Forall (label_in_range (size1 L)) labels ->
  compute_cmp (reorder_samples sigma L) (reorder_labels sigma labels)
  = compute_cmp L labels.
Proof.
  intros Hperm Hrect Hpos Hlen Hlab.
  pose proof (sigma_length _ sigma Hperm) as Hsl.
  assert (Hsize : size0 (reorder_samples sigma L) = size0 L).
  { unfold size0, reorder_samples. cbn [rows]. rewrite length_map. exact Hsl. }
  assert (Hin : forall i, In i sigma -> (i < size0 L)%nat).
  { intros i Hi. apply (sigma_in _ sigma Hperm). exact Hi. }
  rewrite (compute_cmp_closed_form L labels Hrect Hpos Hlen Hlab).
  rewrite compute_cmp_closed_form.
  - rewrite Hsize. f_equal. f_equal.
    rewrite <- (sum_over_sigma _ sigma Hperm (cmp_term L labels)).
    rewrite (map_as_seq (cmp_term L labels) sigma O), Hsl.
    f_equal. apply map_ext_in. intros i Hi. apply in_seq in Hi.
    unfold cmp_term, Spec.excess_prob, Spec.true_prob, reorder_samples,
      reorder_labels. cbn [rows].
    rewrite (nth_map_lt (fun i => nth i (rows L) []) sigma i O []) by lia.
    rewrite (nth_map_lt (fun i => nth i labels 0%Z) sigma i O 0%Z) by lia.
    reflexivity.
  - unfold rectangular, reorder_samples. cbn [rows size1].
    apply Forall_forall. intros r Hr. apply in_map_iff in Hr.
    destruct Hr as [i [<- Hi]].
    apply (proj1 (Forall_forall _ _) Hrect). apply nth_In.
    apply Hin in Hi. unfold size0 in Hi. exact Hi.
  - lia.
  - unfold reorder_labels. rewrite length_map. congruence.
  - unfold reorder_labels, reorder_samples. cbn [size1].
    apply Forall_forall. intros l Hl. apply in_map_iff in Hl.
    destruct Hl as [i [<- Hi]].
    apply (proj1 (Forall_forall _ _) Hlab). apply nth_In.
    apply Hin in Hi. lia.
Qed.

Lemma compute_cmp_sample_order_witness :
  compute_cmp (mkTensor2 [[3; 4]; [1; 2]] 2) [0%Z; 1%Z]
  = compute_cmp (mkTensor2 [[1; 2]; [3; 4]] 2) [1%Z; 0%Z].
Proof.
  apply (compute_cmp_sample_order [1%nat; 0%nat]
           (mkTensor2 [[1; 2]; [3; 4]] 2) [1%Z; 0%Z]).
  - apply perm_swap.
  - repeat constructor.
  - cbv; lia.
  - reflexivity.
  - repeat constructor; unfold label_in_range; simpl; lia.
Defined.

(** ** Adding a constant to the logits *)

Lemma sum_exp_shift (r : list R) (c : R) :
  sum (map exp (map (fun x => x + c) r)) = exp c * sum (map exp r).
Proof.
  unfold sum. induction r as [| x r IH]; simpl.
  - lra.
  - rewrite IH, exp_plus. ring.
Qed.

Lemma softmax_row_shift (r : list R) (c : R) :
  softmax_row (map (fun x => x + c) r) = softmax_row r.
Proof.
  unfold softmax_row. rewrite map_map. apply map_ext_in. intros x Hx.
  rewrite sum_exp_shift, exp_plus.
  assert (Hr : r <> []) by (intros ->; destruct Hx).
  pose proof (sum_exp_pos r Hr). pose proof (exp_pos c).
  field. split; lra.
Qed.

Lemma softmax_add_scalar (L : Tensor2) (c : R) :
  softmax (add_scalar L c) = softmax L.
Proof.
  unfold softmax, add_scalar. cbn [rows size1]. f_equal.
  rewrite map_map. apply map_ext. intros r. apply softmax_row_shift.
Qed.

Lemma nll_sum_shift (C : nat) (input : list (list R)) (target : list Z) (c : R) :
  nll_sum C (map (map (fun x => x + c)) input) target = nll_sum C input target.
Proof.
  revert target. induction input as [| r input IH]; intros [| t target];
    try reflexivity.
  simpl. rewrite IH, softmax_row_shift. reflexivity.
Qed.

Lemma cross_entropy_add_scalar (L : Tensor2) (labels : list Z) (c : R) :
  cross_entropy (add_scalar L c) labels = cross_entropy L labels.
Proof.
  unfold cross_entropy, add_scalar, size0. cbn [rows size1].
  rewrite length_map, nll_sum_shift. reflexivity.
Qed.

Lemma transpose_add_scalar (L : Tensor2) (c : R) :
  rectangular L -> transpose (add_scalar L c) = add_scalar (transpose L) c.
Proof.
  intros Hrect. unfold transpose, add_scalar, size0. cbn [rows size1].
  f_equal; [| apply length_map].
  rewrite map_map. apply map_ext_in. intros j Hj. apply in_seq in Hj.
  rewrite !map_map. apply map_ext_in. intros r Hr.
  apply (nth_map_lt (fun x => x + c) r j 0 0).
  rewrite (proj1 (Forall_forall _ _) Hrect r Hr). lia.
Qed.

(** X12.  Adding one constant to every logit changes neither the contrastive
    loss nor the confidence-misalignment penalty, in value or in exception:
    both depend on the logits through softmax probabilities only. *)
Theorem losses_shift_invariant (L : Tensor2) (labels : list Z) (c : R) :
  rectangular L ->
  contrastive_loss (add_scalar L c) labels = contrastive_loss L labels /\
  compute_cmp (add_scalar L c) labels = compute_cmp L labels.
Proof.
  intros Hrect. split.
  - unfold contrastive_loss.
    rewrite (transpose_add_scalar L c Hrect), !cross_entropy_add_scalar.
    reflexivity.
  - unfold compute_cmp. rewrite softmax_add_scalar.
    unfold size0, add_scalar. cbn [rows]. rewrite length_map. reflexivity.
Qed.

Lemma losses_shift_invariant_witness :
  contrastive_loss (add_scalar (mkTensor2 [[1; 2]; [3; 4]] 2) 5) [1%Z; 0%Z]
  = contrastive_loss (mkTensor2 [[1; 2]; [3; 4]] 2) [1%Z; 0%Z].
Proof.
  apply (losses_shift_invariant (mkTensor2 [[1; 2]; [3; 4]] 2) [1%Z; 0%Z] 5).
  repeat constructor.
Defined.

(** ** Every outcome of [forward] on an instance as constructed *)

Lemma compute_fisher_penalty_empty
    {Images TextTokens : Type}
    (autograd_grad : nat -> R -> list Param -> option (list (list R)))
    (self : CalShift Images TextTokens) (L : Tensor2) (labels : list Z) :
  size0 L = 0%nat ->
  compute_fisher_penalty autograd_grad self L labels = Raise RuntimeError.
Proof. intros H. unfold compute_fisher_penalty. rewrite H. reflexivity. Qed.

Lemma compute_fisher_penalty_first_rejected
    {Images TextTokens : Type}
    (autograd_grad : nat -> R -> list Param -> option (list (list R)))
    (self : CalShift Images TextTokens) (L : Tensor2) (l : Z) (labels : list Z) :
  (0 < size0 L)%nat ->
  ~ label_indexable (size1 L) l ->
  compute_fisher_penalty autograd_grad self L (l :: labels) = Raise IndexError.
Proof.
  intros Hpos Hnidx. unfold compute_fisher_penalty.
  destruct (size0 L) as [| n] eqn:En; [lia |].
  cbn [seq fisher_loop]. unfold getitem. cbn [nth_error]. simpl bind.
  unfold index2.
  destruct (nth_error (rows (softmax L)) 0) as [r |] eqn:Er.
  - change (size1 (softmax L)) with (size1 L).
    rewrite (wrap_index_raises _ _ Hnidx). reflexivity.
  - apply nth_error_None in Er. fold (size0 (softmax L)) in Er.
    rewrite size0_softmax in Er. lia.
Qed.

(** X13.  The complete table of what [forward] does on an instance as the
    constructor leaves it.  It never returns.  It raises [RuntimeError] when
    the embedding dimensions differ, or on the empty 0 x 0 batch;
    [ValueError] when the number of labels differs from N, or the labels are
    accepted and N differs from M; [IndexError] when some label is rejected
    by the cross-entropy, or the batch is square and the first label, though
    accepted by the cross-entropy, is outside [-M, M) (it is then -100, with
    fewer than 100 prompts); and [AttributeError] in the remaining case, the
    one in which the Fisher penalty reaches the missing prompt learner. *)
Theorem forward_as_constructed_outcome
    {Images TextTokens : Type}
    (autograd_grad : nat -> R -> list Param -> option (list (list R)))
    (clip_model0 : ClipModel Images TextTokens) (lambda_fim0 lambda_cmp0 : R)
    (images : Images) (text_tokens : TextTokens) (labels : list Z) :
  let self := snd (__init__ clip_model0 lambda_fim0 lambda_cmp0) in
  let N := num_images clip_model0 images in
  let M := num_prompts clip_model0 text_tokens in
  let same_dim := same_embedding_dim clip_model0 images text_tokens in
  match forward autograd_grad self images text_tokens labels with
  | Ok _ => False
  | Raise RuntimeError =>
      ~ same_dim \/ (same_dim /\ N = 0%nat /\ M = 0%nat /\ labels = [])
  | Raise ValueError =>
      same_dim /\
      (length labels <> N \/
       (length labels = N /\ Forall (target_accepted M) labels /\ N <> M))
  | Raise IndexError =>
      same_dim /\ length labels = N /\
      (Exists (target_rejected M) labels \/
       (Forall (target_accepted M) labels /\ N = M /\
        exists l rest, labels = l :: rest /\ ~ label_indexable M l))
  | Raise AttributeError =>
      same_dim /\ length labels = N /\ N = M /\
      Forall (target_accepted M) labels /\
      exists l rest, labels = l :: rest /\ label_indexable M l
  | Raise ZeroDivisionError => False
  end.
Proof.
  intros self N M same_dim.
  assert (Hnone : prompt_learner self = None) by reflexivity.
  destruct (Nat.eq_dec (size1 (encode_image clip_model0 images))
                       (size1 (encode_text clip_model0 text_tokens)))
    as [Hd | Hd].
  2:{ unfold forward.
      rewrite (compute_logits_mismatch self images text_tokens Hd).
      left. exact Hd. }
  destruct (compute_logits_Ok self images text_tokens Hd)
    as [L [HL [HN [HM _]]]].
  change (num_images (clip_model self) images) with N in HN.
  change (num_prompts (clip_model self) text_tokens) with M in HM.
  unfold forward. rewrite HL. simpl bind. unfold contrastive_loss.
  destruct (Nat.eq_dec (length labels) N) as [Hlen | Hlen].
  2:{ rewrite (cross_entropy_batch_mismatch L labels) by congruence.
      simpl. split; [exact Hd | left; exact Hlen]. }
  destruct (accepted_or_rejected M labels) as [Hacc | Hrej].
  2:{ rewrite (cross_entropy_rejected L labels) by (congruence || (rewrite HM; exact Hrej)).
      simpl. split; [exact Hd |]. split; [exact Hlen | left; exact Hrej]. }
  destruct (cross_entropy_Ok L labels) as [by_row ->];
    [congruence | rewrite HM; exact Hacc |].
  simpl bind.
  destruct (Nat.eq_dec N M) as [Hsq | Hsq].
  2:{ rewrite (cross_entropy_batch_mismatch (transpose L) labels)
        by (rewrite size0_transpose; congruence).
      simpl. split; [exact Hd |]. right. repeat split; assumption. }
  destruct (cross_entropy_Ok (transpose L) labels) as [by_column ->].
  { rewrite size0_transpose. congruence. }
  { cbn [size1 transpose]. rewrite HN, Hsq. exact Hacc. }
  simpl bind.
  destruct labels as [| l rest].
  - rewrite (compute_fisher_penalty_empty autograd_grad self L [])
      by (simpl in Hlen; congruence).
    simpl. right. simpl in Hlen. repeat split; congruence.
  - assert (Hpos : (0 < size0 L)%nat) by (simpl in Hlen; lia).
    destruct (label_indexable_dec M l) as [Hidx | Hnidx].
    + rewrite (compute_fisher_penalty_None_AttributeError
                 autograd_grad self L (l :: rest) l Hnone Hpos eq_refl)
        by (rewrite HM; exact Hidx).
      simpl. repeat split; try assumption.
      exists l, rest. split; [reflexivity | exact Hidx].
    + rewrite (compute_fisher_penalty_first_rejected autograd_grad self L l rest Hpos)
        by (rewrite HM; exact Hnidx).
      simpl. split; [exact Hd |]. split; [exact Hlen |]. right.
      repeat split; try assumption.
      exists l, rest. split; [reflexivity | exact Hnidx].
Qed.

(** ** The penalty does not depend on the numbering of the classes *)

(** Selecting classes commutes with renumbering them. *)
Lemma selection_reordered (keep : nat -> bool) (u v : list nat) :
  Permutation u v -> Permutation (filter keep u) (filter keep v).
Proof.
  intros Huv. induction Huv as [| k u v _ IH | j k u | u v w _ IHuv _ IHvw].
  - apply Permutation_refl.
  - simpl. destruct (keep k); [apply perm_skip |]; exact IH.
  - simpl. destruct (keep j), (keep k);
      first [apply perm_swap | apply Permutation_refl].
  - exact (Permutation_trans IHuv IHvw).
Qed.

Section ClassOrder.

Variable M : nat.
Variable sigma : list nat.
Hypothesis sigma_perm : Permutation sigma (seq 0 M).

Lemma sigma_NoDup : NoDup sigma.
Proof.
  apply (Permutation_NoDup (Permutation_sym sigma_perm)). apply seq_NoDup.
Qed.

Lemma position_nth (j : nat) :
  (j < M)%nat -> position sigma (nth j sigma O) = j.
Proof.
  intros Hj. pose proof (sigma_length M sigma sigma_perm) as Hsl.
  assert (Hin : In (nth j sigma O) sigma) by (apply nth_In; lia).
  destruct (position_spec sigma _ Hin) as [Hlt Hnth].
  apply (proj1 (NoDup_nth sigma O) sigma_NoDup); [exact Hlt | lia | exact Hnth].
Qed.

(** The exceeding classes of a renumbered row are the renumbered exceeding
    classes, so they carry the same probability. *)
Lemma excess_permute (r : list R) (l : nat) :
  length r = M -> (l < M)%nat ->
  sum (map (Spec.softmax_prob (permute_vector sigma r))
           (Spec.exceeding (permute_vector sigma r) (position sigma l)))
  = sum (map (Spec.softmax_prob r) (Spec.exceeding r l)).
Proof.
  intros Hr Hl. pose proof (sigma_length M sigma sigma_perm) as Hsl.
  unfold Spec.exceeding.
  rewrite (length_permute_vector M sigma sigma_perm), Hr.
  set (H := fun k => negb (Nat.eqb k l)
                     && Rgtb (Spec.softmax_prob r k) (Spec.softmax_prob r l)).
  rewrite (sum_Permutation _ _
             (Permutation_map (Spec.softmax_prob r)
                (selection_reordered H _ _ (Permutation_sym sigma_perm)))).
  rewrite <- (map_nth_seq sigma O) at 2. rewrite Hsl.
  rewrite filter_map_swap, map_map.
  rewrite (filter_ext_in
             (fun j => negb (Nat.eqb j (position sigma l))
                       && Rgtb (Spec.softmax_prob (permute_vector sigma r) j)
                               (Spec.softmax_prob (permute_vector sigma r)
                                                  (position sigma l)))
             (fun j => H (nth j sigma O))).
  - f_equal. apply map_ext_in. intros j Hj. apply filter_In in Hj.
    destruct Hj as [Hj _]. apply in_seq in Hj.
    rewrite <- (position_nth j) at 1 by lia.
    apply (softmax_prob_permute M sigma sigma_perm r _ Hr).
    apply (sigma_in M sigma sigma_perm). apply nth_In. lia.
  - intros j Hj. apply in_seq in Hj. unfold H.
    assert (Hk : (nth j sigma O < M)%nat).
    { apply (sigma_in M sigma sigma_perm). apply nth_In. lia. }
    rewrite (softmax_prob_permute M sigma sigma_perm r l Hr Hl).
    rewrite <- (position_nth j) at 2 by lia.
    rewrite (softmax_prob_permute M sigma sigma_perm r _ Hr Hk).
    f_equal. f_equal.
    destruct (Nat.eqb (nth j sigma O) l) eqn:E.
    + apply Nat.eqb_eq in E. apply Nat.eqb_eq. rewrite <- E.
      symmetry. apply position_nth. lia.
    + apply Nat.eqb_neq in E. apply Nat.eqb_neq. intros Hpos. apply E.
      destruct (position_spec sigma l (proj2 (sigma_in M sigma sigma_perm l) Hl))
        as [_ Hnth].
      rewrite <- Hpos in Hnth. exact Hnth.
Qed.

End ClassOrder.

(** X14.  On a non-empty batch with one label in [0, M) per row, the
    confidence-misalignment penalty does not depend on the numbering of the
    classes: permuting the columns of the logits and renumbering the labels
    to match leaves it unchanged. *)
Theorem compute_cmp_class_order
    (sigma : list nat) (L : Tensor2) (labels : list Z) :
  Permutation sigma (seq 0 (size1 L)) ->
  rectangular L ->
  (0 < size0 L)%nat ->
  length labels = size0 L ->
  Forall (label_in_range (size1 L)) labels ->
  compute_cmp (permute_classes sigma L) (relabel sigma labels)
  = compute_cmp L labels.
Proof.
  intros Hperm Hrect Hpos Hlen Hlab.
  assert (Hsize : size0 (permute_classes sigma L) = size0 L).
  { unfold size0, permute_classes. cbn [rows]. apply length_map. }
  rewrite (compute_cmp_closed_form L labels Hrect Hpos Hlen Hlab).
  rewrite compute_cmp_closed_form.
  - rewrite Hsize. f_equal. f_equal. apply sum_map_ext_in.
    intros i Hi. apply in_seq in Hi.
    assert (Hrow : length (nth i (rows L) []) = size1 L).
    { apply (proj1 (Forall_forall _ _) Hrect). apply nth_In.
      unfold size0 in Hi. lia. }
    assert (Hl : (Z.to_nat (nth i labels 0%Z) < size1 L)%nat).
    { assert (Hr : label_in_range (size1 L) (nth i labels 0%Z)).
      { apply (proj1 (Forall_forall _ _) Hlab). apply nth_In. lia. }
      unfold label_in_range in Hr. lia. }
    assert (Hrow' : nth i (rows (permute_classes sigma L)) []
                    = permute_vector sigma (nth i (rows L) [])).
    { unfold permute_classes. cbn [rows].
      apply (nth_map_lt (permute_vector sigma) (rows L) i [] []).
      unfold size0 in Hi. lia. }
    assert (Hlab' : Z.to_nat (nth i (relabel sigma labels) 0%Z)
                    = position sigma (Z.to_nat (nth i labels 0%Z))).
    { unfold relabel.
      rewrite (nth_map_lt (fun l => Z.of_nat (position sigma (Z.to_nat l)))
                          labels i 0%Z 0%Z) by lia.
      apply Nat2Z.id. }
    unfold cmp_term, Spec.excess_prob, Spec.true_prob.
    rewrite Hrow', Hlab'.
    rewrite (excess_permute (size1 L) sigma Hperm _ _ Hrow Hl).
    rewrite (softmax_prob_permute (size1 L) sigma Hperm _ _ Hrow Hl).
    reflexivity.
  - unfold rectangular, permute_classes. cbn [rows size1].
    apply Forall_forall. intros r Hr. apply in_map_iff in Hr.
    destruct Hr as [r0 [<- _]].
    apply (length_permute_vector (size1 L) sigma Hperm).
  - lia.
  - unfold relabel. rewrite length_map. congruence.
  - unfold relabel, permute_classes. cbn [size1].
    apply Forall_forall. intros l Hl. apply in_map_iff in Hl.
    destruct Hl as [l0 [<- Hl0]].
    pose proof (proj1 (Forall_forall _ _) Hlab l0 Hl0) as Hr.
    unfold label_in_range in *.
    destruct (position_spec sigma (Z.to_nat l0)) as [Hlt _].
    { apply (sigma_in (size1 L) sigma Hperm). lia. }
    rewrite (sigma_length (size1 L) sigma Hperm) in Hlt. lia.
Qed.

Lemma compute_cmp_class_order_witness :
  compute_cmp (mkTensor2 [[2; 1]; [4; 3]] 2) [0%Z; 1%Z]
  = compute_cmp (mkTensor2 [[1; 2]; [3; 4]] 2) [1%Z; 0%Z].
Proof.
  apply (compute_cmp_class_order [1%nat; 0%nat]
           (mkTensor2 [[1; 2]; [3; 4]] 2) [1%Z; 0%Z]).
  - apply perm_swap.
  - repeat constructor.
  - cbv; lia.
  - reflexivity.
  - repeat constructor; unfold label_in_range; simpl; lia.
Defined.
